(** * Tic-tac-toe: the room relay (server.ts) and the board engine (App.tsx)

    A shallow embedding of the two source files.

    - [Server] embeds the socket handlers of [server.ts] ([join_room],
      [make_move], [reset_game], [disconnect]) over an explicit state: the
      [rooms] registry (a JS [Map]) and the broadcast groups kept by the
      transport ([socket.join], [io.to(code).emit]).
    - [Engine] embeds [WINNING_COMBINATIONS], [checkWinner], [minimax] and
      [getBestMove] of [App.tsx], with the array they work on threaded
      through.
    - [Client] embeds the state of [App] and its handlers
      ([handleSquareClick], [updateScores], the computer's turn,
      [resetGame], [quitGame], the socket handlers); [Online] puts client
      and server on one wire.
    - [ServerSpec], [EngineSpec], [ServerMore], [EngineMore], [ClientSpec]
      and [OnlineSpec] hold the properties. *)

From Stdlib Require Import ZArith.
From stdpp Require Import gmap strings list fin_maps.

Local Open Scope string_scope.
Local Open Scope list_scope.
Local Open Scope nat_scope.

(* ===================================================================== *)
(** * The relay server                                                    *)
(* ===================================================================== *)

Module Server.

(** A board cell as the server stores it: [null] is [None], a written
    symbol is [Some s].  The server is untyped, so a symbol is whatever
    string the [make_move] payload carried. *)
Abbreviation Cell := (option string) (only parsing).

(** [{ players: [...], board: Array(9), turn: 'X' }] *)
Record Room : Type := mkRoom {
  players : list string;
  board : list Cell;
  turn : string
}.

(** Messages a client sends (the [socket.on] handlers), with the payload
    types of the wire format: room codes and symbols are strings, the cell
    index is an integer. *)
Inductive ClientMsg : Type :=
| join_room (roomCode : string)
| make_move (roomCode : string) (index : Z) (symbol : string)
| reset_game (roomCode : string)
| disconnect.

(** Messages the server sends. *)
Inductive ServerMsg : Type :=
| player_assignment (symbol : string)
| game_ready (b : list Cell) (t : string)
| move_made (b : list Cell) (t : string)
| game_reset (b : list Cell) (t : string)
| error (message : string).

(** One [emit]: [socket.emit] reaches the handling socket only,
    [io.to(roomCode).emit] reaches every socket that is in the broadcast
    group of [roomCode] when the call is made. *)
Inductive Emit : Type :=
| Unicast (socket : string) (m : ServerMsg)
| Broadcast (roomCode : string) (recipients : gset string) (m : ServerMsg).

(** The server state: the [rooms] map of the source and the transport's
    broadcast groups (room code to subscribed socket ids).  Only the groups
    that [socket.join(roomCode)] fills are kept; the private group the
    transport names after each socket's own id is left out. *)
Record State : Type := mkState {
  rooms : gmap string Room;
  groups : gmap string (gset string)
}.

Definition init : State := mkState ∅ ∅.

Definition members (st : State) (roomCode : string) : gset string :=
  default ∅ (groups st !! roomCode).

(** [socket.join(roomCode)] *)
Definition socket_join (socket roomCode : string) (st : State)
  : gmap string (gset string) :=
  <[roomCode := {[socket]} ∪ members st roomCode]> (groups st).

(** [Array(9).fill(null)] *)
Definition empty_board : list Cell := replicate 9 None.

(** [room.board[index]]: [None] is JS [undefined] (no such element),
    [Some None] is [null]. *)
Definition array_get (b : list Cell) (index : Z) : option Cell :=
  if bool_decide (0 ≤ index)%Z then b !! Z.to_nat index else None.

(** [room.board[index] = symbol]; the handler only writes after reading
    [null] at [index], so the write always hits an existing element. *)
Definition array_set (b : list Cell) (index : Z) (symbol : string) : list Cell :=
  <[Z.to_nat index := Some symbol]> b.

(** [symbol === 'X' ? 'O' : 'X'] *)
Definition next_turn (symbol : string) : string :=
  if bool_decide (symbol = "X") then "O" else "X".

Definition on_join_room (socket roomCode : string) (st : State)
  : State * list Emit :=
  let grp := socket_join socket roomCode st in
  match rooms st !! roomCode with
  | None =>
      (mkState (<[roomCode := mkRoom [socket] empty_board "X"]> (rooms st)) grp,
       [Unicast socket (player_assignment "X")])
  | Some room =>
      if bool_decide (length (players room) < 2) then
        let room' := mkRoom (players room ++ [socket]) (board room) (turn room) in
        (mkState (<[roomCode := room']> (rooms st)) grp,
         [Unicast socket (player_assignment "O");
          Broadcast roomCode ({[socket]} ∪ members st roomCode)
                    (game_ready (board room') (turn room'))])
      else
        (mkState (rooms st) grp, [Unicast socket (error "Room is full")])
  end.

Definition on_make_move (roomCode : string) (index : Z) (symbol : string)
    (st : State) : State * list Emit :=
  match rooms st !! roomCode with
  | Some room =>
      if bool_decide (array_get (board room) index = Some None)
         && bool_decide (turn room = symbol) then
        let room' := mkRoom (players room)
                            (array_set (board room) index symbol)
                            (next_turn symbol) in
        (mkState (<[roomCode := room']> (rooms st)) (groups st),
         [Broadcast roomCode (members st roomCode)
                    (move_made (board room') (turn room'))])
      else (st, [])
  | None => (st, [])
  end.

Definition on_reset_game (roomCode : string) (st : State) : State * list Emit :=
  match rooms st !! roomCode with
  | Some room =>
      let room' := mkRoom (players room) empty_board "X" in
      (mkState (<[roomCode := room']> (rooms st)) (groups st),
       [Broadcast roomCode (members st roomCode)
                  (game_reset (board room') (turn room'))])
  | None => (st, [])
  end.

(** The [disconnect] handler of the source only logs; the transport itself
    drops the closed socket from every broadcast group. *)
Definition on_disconnect (socket : string) (st : State) : State * list Emit :=
  (mkState (rooms st) ((λ g, g ∖ {[socket]}) <$> groups st), []).

(** One message from one connection, handled to completion. *)
Definition handle (socket : string) (m : ClientMsg) (st : State)
  : State * list Emit :=
  match m with
  | join_room roomCode => on_join_room socket roomCode st
  | make_move roomCode index symbol => on_make_move roomCode index symbol st
  | reset_game roomCode => on_reset_game roomCode st
  | disconnect => on_disconnect socket st
  end.

(** The event loop: messages are handled one after the other. *)
Fixpoint run (st : State) (tr : list (string * ClientMsg)) : State * list Emit :=
  match tr with
  | [] => (st, [])
  | (socket, m) :: tr' =>
      let '(st1, out1) := handle socket m st in
      let '(st2, out2) := run st1 tr' in
      (st2, out1 ++ out2)
  end.

Definition reachable (st : State) : Prop := ∃ tr, (run init tr).1 = st.

(** The shape of every room the handlers can produce. *)
Definition room_ok (room : Room) : Prop :=
  length (board room) = 9 ∧ (turn room = "X" ∨ turn room = "O").

Definition state_ok (st : State) : Prop :=
  ∀ code room, rooms st !! code = Some room → room_ok room.

(** The three conditions of the [if] that guards a move. *)
Definition move_allowed (st : State) (roomCode : string) (index : Z)
    (symbol : string) : Prop :=
  ∃ room, rooms st !! roomCode = Some room
          ∧ array_get (board room) index = Some None
          ∧ turn room = symbol.

(** The state a move leaves behind when it is taken. *)
Definition moved (st : State) (roomCode : string) (room : Room) (index : Z)
    (symbol : string) : State :=
  mkState (<[roomCode := mkRoom (players room)
                                (array_set (board room) index symbol)
                                (next_turn symbol)]> (rooms st))
          (groups st).

(** Reading [index] finds no element at all ([undefined]) in a room's
    board. *)
Definition array_get_refuses (st : State) (roomCode : string) (index : Z) : Prop :=
  ∀ room, rooms st !! roomCode = Some room → array_get (board room) index = None.

(** Some [move_made] is among the emitted messages. *)
Definition emits_move_made (out : list Emit) : Prop :=
  ∃ code recipients b t, Broadcast code recipients (move_made b t) ∈ out.

(** No message of the run resets the room or is a move the room takes:
    each [make_move] for the room fails the guard in the state it meets. *)
Fixpoint quiet (roomCode : string) (st : State) (tr : list (string * ClientMsg))
  : Prop :=
  match tr with
  | [] => True
  | (socket, m) :: tr' =>
      m ≠ reset_game roomCode
      ∧ (∀ index symbol, m = make_move roomCode index symbol →
                         ¬ move_allowed st roomCode index symbol)
      ∧ quiet roomCode (handle socket m st).1 tr'
  end.
End Server.

(* ===================================================================== *)
(** * The board engine                                                    *)
(* ===================================================================== *)

Module Engine.

(** [type Player = 'X' | 'O' | null] *)
Inductive Mark : Type := X | O.
Abbreviation Player := (option Mark) (only parsing).

Global Instance Mark_eq_dec : EqDecision Mark.
Proof. solve_decision. Defined.

Definition WINNING_COMBINATIONS : list (nat * nat * nat) :=
  [ (0, 1, 2); (3, 4, 5); (6, 7, 8);   (* Rows *)
    (0, 3, 6); (1, 4, 7); (2, 5, 8);   (* Columns *)
    (0, 4, 8); (2, 4, 6) ].            (* Diagonals *)

(** What [checkWinner] returns when it does not return [null]:
    [{ winner: 'X' | 'O' | 'Draw', line: combo | null }]. *)
Inductive Winner : Type := Won (p : Mark) | Draw.

Record Result : Type := mkResult {
  winner : Winner;
  line : option (nat * nat * nat)
}.

Global Instance Winner_eq_dec : EqDecision Winner.
Proof. solve_decision. Defined.

Global Instance Result_eq_dec : EqDecision Result.
Proof. solve_decision. Defined.

(** [squares[i]] is [squares !! i]: [None] is [undefined], [Some None] is
    [null].  Both are falsy. *)
Definition truthy (v : option Player) : bool :=
  match v with
  | Some (Some _) => true
  | _ => false
  end.

(** The [for (const combo of ...)] loop of [checkWinner], leaving at the
    first combination whose three cells hold the same mark. *)
Fixpoint scan (squares : list Player) (combos : list (nat * nat * nat))
  : option Result :=
  match combos with
  | [] => None
  | (a, b, c) :: rest =>
      match squares !! a with
      | Some (Some p) =>
          if bool_decide (squares !! a = squares !! b)
             && bool_decide (squares !! a = squares !! c)
          then Some (mkResult (Won p) (Some (a, b, c)))
          else scan squares rest
      | _ => scan squares rest
      end
  end.

Definition checkWinner (squares : list Player) : option Result :=
  match scan squares WINNING_COMBINATIONS with
  | Some r => Some r
  | None =>
      if forallb (λ s : Player, bool_decide (s ≠ None)) squares
      then Some (mkResult Draw None)
      else None
  end.

(** Scores are JS numbers: integers between [-10] and [10], and the two
    infinities that start the running best. *)
Inductive Score : Type := NegInf | Fin (z : Z) | PosInf.

(** [a > b] *)
Definition score_gt (a b : Score) : bool :=
  match a, b with
  | NegInf, _ => false
  | _, PosInf => false
  | Fin x, Fin y => bool_decide (y < x)%Z
  | _, _ => true
  end.

(** [Math.max(a, b)] and [Math.min(a, b)] *)
Definition score_max (a b : Score) : Score := if score_gt b a then b else a.
Definition score_min (a b : Score) : Score := if score_gt a b then b else a.

(** [aiSymbol === 'X' ? 'O' : 'X'] *)
Definition opponent (aiSymbol : Mark) : Mark :=
  match aiSymbol with X => O | O => X end.

(** [result?.winner === s] *)
Definition winner_is (result : option Result) (w : Winner) : bool :=
  match result with
  | Some r => bool_decide (winner r = w)
  | None => false
  end.

(** [minimax] and [getBestMove] work in place on the array they are given:
    they write a trial mark, search, and write [null] back.  The array is
    therefore threaded through: each function returns it, as it is when the
    function returns, next to its JS result.  [aiSymbol] is a mark, as at
    the only call site ([userSymbol === 'X' ? 'O' : 'X']).  The boards of
    the application all come from [Array(9).fill(null)]; on a shorter array
    JS would grow it at the trial write where the list update does nothing,
    so the properties below are stated for 9-cell boards. *)

(** One turn of the [for (let i = 0; i < 9; i++)] loop of [minimax] on the
    running [bestScore] and the array: an occupied cell is skipped; on an
    empty one [mark] is written, [search] is the recursive call, [null] is
    written back, and [pick] is [Math.max] or [Math.min]. *)
Definition score_step (pick : Score → Score → Score) (mark : Mark)
    (search : list Player → option (Score * list Player))
    (acc : option (Score * list Player)) (i : nat)
  : option (Score * list Player) :=
  '(bestScore, squares) ← acc;
  if truthy (squares !! i) then Some (bestScore, squares)
  else
    '(score, squares) ← search (<[i := Some mark]> squares);
    Some (pick score bestScore, <[i := None]> squares).

(** [minimax].  The recursion is on [fuel]; [None] means the fuel ran out,
    which cannot happen on a 9-cell board with fewer empty cells than
    [fuel]. *)
Fixpoint minimax (fuel : nat) (squares : list Player) (depth : Z)
    (isMaximizing : bool) (aiSymbol : Mark) : option (Score * list Player) :=
  match fuel with
  | 0 => None
  | S fuel' =>
      let result := checkWinner squares in
      let opponentSymbol := opponent aiSymbol in
      if winner_is result (Won aiSymbol) then Some (Fin (10 - depth), squares)
      else if winner_is result (Won opponentSymbol)
      then Some (Fin (depth - 10), squares)
      else if winner_is result Draw then Some (Fin 0, squares)
      else if isMaximizing then
        fold_left
          (score_step score_max aiSymbol
             (λ sq, minimax fuel' sq (depth + 1) false aiSymbol))
          (seq 0 9) (Some (NegInf, squares))
      else
        fold_left
          (score_step score_min opponentSymbol
             (λ sq, minimax fuel' sq (depth + 1) true aiSymbol))
          (seq 0 9) (Some (PosInf, squares))
  end.

(** The search is at most nine plies deep below [getBestMove]. *)
Definition search_fuel : nat := 10.

(** One turn of the [for] loop of [getBestMove] on [bestScore], [move] and
    the array. *)
Definition best_step (aiSymbol : Mark)
    (acc : option (Score * Z * list Player)) (i : nat)
  : option (Score * Z * list Player) :=
  '(bestScore, move, squares) ← acc;
  if truthy (squares !! i) then Some (bestScore, move, squares)
  else
    '(score, squares) ←
      minimax search_fuel (<[i := Some aiSymbol]> squares) 0 false aiSymbol;
    let squares := <[i := None]> squares in
    if score_gt score bestScore then Some (score, Z.of_nat i, squares)
    else Some (bestScore, move, squares).

(** [getBestMove]: the move, and the array as the search leaves it. *)
Definition getBestMove (squares : list Player) (aiSymbol : Mark)
  : option (Z * list Player) :=
  '(_, move, squares) ←
    fold_left (best_step aiSymbol) (seq 0 9) (Some (NegInf, (-1)%Z, squares));
  Some (move, squares).

(** [Array(9).fill(null)] *)
Definition empty_board : list Player := replicate 9 None.

(** The computer's turn ([useEffect]): ask [getBestMove], and unless it
    answers [-1] copy the board and write the mark.  [None]: no move is
    made. *)
Definition aiTurn (board : list Player) (aiSymbol : Mark) : option (list Player) :=
  '(bestMove, board) ← getBestMove board aiSymbol;
  if bool_decide (bestMove = (-1)%Z) then None
  else Some (<[Z.to_nat bestMove := Some aiSymbol]> board).

(** Both sides are played by [getBestMove] until [checkWinner] answers. *)
Fixpoint selfPlay (rounds : nat) (board : list Player) (turn : Mark)
  : option Result :=
  match checkWinner board with
  | Some r => Some r
  | None =>
      match rounds with
      | 0 => None
      | S rounds' =>
          board' ← aiTurn board turn;
          selfPlay rounds' board' (opponent turn)
      end
  end.

(** A game of the computer ([aiSymbol]) against any opponent: the game stops
    as soon as [checkWinner] answers; the computer answers with [aiTurn];
    the opponent may take any empty cell ([handleSquareClick]). *)
Inductive plays (aiSymbol : Mark) : list Player → Mark → Result → Prop :=
| plays_over board turn r :
    checkWinner board = Some r →
    plays aiSymbol board turn r
| plays_ai board board' r :
    checkWinner board = None →
    aiTurn board aiSymbol = Some board' →
    plays aiSymbol board' (opponent aiSymbol) r →
    plays aiSymbol board aiSymbol r
| plays_opponent board i r :
    checkWinner board = None →
    board !! i = Some None →
    plays aiSymbol (<[i := Some (opponent aiSymbol)]> board) aiSymbol r →
    plays aiSymbol board (opponent aiSymbol) r.

(** The same games explored exhaustively: [true] when no line of play from
    [board] ends with the opponent winning. *)
Fixpoint survives (rounds : nat) (aiSymbol : Mark) (board : list Player)
    (turn : Mark) : bool :=
  match checkWinner board with
  | Some r => negb (bool_decide (winner r = Won (opponent aiSymbol)))
  | None =>
      match rounds with
      | 0 => false
      | S rounds' =>
          if bool_decide (turn = aiSymbol) then
            match aiTurn board aiSymbol with
            | Some board' => survives rounds' aiSymbol board' (opponent aiSymbol)
            | None => true
            end
          else
            forallb
              (λ i, if bool_decide (board !! i = Some None)
                    then survives rounds' aiSymbol
                           (<[i := Some (opponent aiSymbol)]> board) aiSymbol
                    else true)
              (seq 0 (length board))
      end
  end.

(** The three cells of a combination hold the mark [p]. *)
Definition line_of (squares : list Player) (combo : nat * nat * nat)
    (p : Mark) : Prop :=
  squares !! combo.1.1 = Some (Some p)
  ∧ squares !! combo.1.2 = Some (Some p)
  ∧ squares !! combo.2 = Some (Some p).

(** No mark fills the combination. *)
Definition no_line (squares : list Player) (combo : nat * nat * nat) : Prop :=
  ∀ p, ¬ line_of squares combo p.

(** All nine cells hold a mark. *)
Definition filled (squares : list Player) : Prop :=
  ∀ i, i < 9 → ∃ p, squares !! i = Some (Some p).

(** The number of empty cells, which bounds the depth of the search. *)
Definition empties (squares : list Player) : nat :=
  length (filter (λ s : Player, s = None) squares).

(** [(bestScore, move)] holds a finite score and the index of an empty
    cell. *)
Definition holds_move (squares : list Player) (best : Score * Z) : Prop :=
  (∃ z, best.1 = Fin z)
  ∧ (0 ≤ best.2)%Z ∧ squares !! Z.to_nat best.2 = Some None.

(** What [getBestMove] holds in [(bestScore, move)] while it loops: nothing
    yet, or a finite score and the index of an empty cell. *)
Definition best_ok (squares : list Player) (best : Score * Z) : Prop :=
  best = (NegInf, (-1)%Z) ∨ holds_move squares best.

End Engine.

(* ===================================================================== *)
(** * More about the relay server: what its states and messages look like *)
(* ===================================================================== *)

Module ServerShape.
Import Server.

(** The room a client message names ([disconnect] names none). *)
Definition msg_room (m : ClientMsg) : option string :=
  match m with
  | join_room roomCode => Some roomCode
  | make_move roomCode _ _ => Some roomCode
  | reset_game roomCode => Some roomCode
  | disconnect => None
  end.

(** The [{ board, turn }] object a broadcast carries. *)
Definition payload (m : ServerMsg) : option (list Cell * string) :=
  match m with
  | game_ready b t => Some (b, t)
  | move_made b t => Some (b, t)
  | game_reset b t => Some (b, t)
  | player_assignment _ => None
  | error _ => None
  end.

(** How many cells of a board hold [symbol]. *)
Definition marks (symbol : string) (b : list Cell) : nat :=
  length (filter (λ c : Cell, c = Some symbol) b).

(** A cell is [null], ['X'] or ['O']. *)
Definition cell_ok (c : Cell) : Prop :=
  c = None ∨ c = Some "X" ∨ c = Some "O".

(** X moves first and the two symbols alternate: on X's turn the board
    holds as many X as O, on O's turn one X more. *)
Definition board_ok (room : Room) : Prop :=
  length (board room) = 9
  ∧ Forall cell_ok (board room)
  ∧ (turn room = "X" ∧ marks "X" (board room) = marks "O" (board room)
     ∨ turn room = "O" ∧ marks "X" (board room) = S (marks "O" (board room))).

(** One or two participants. *)
Definition seats_ok (room : Room) : Prop :=
  1 ≤ length (players room) ≤ 2.

End ServerShape.

(* ===================================================================== *)
(** * More about the board engine                                         *)
(* ===================================================================== *)

Module EngineShape.
Import Engine.


End EngineShape.

(* ===================================================================== *)
(** * The client: the state of [App] and its handlers                     *)
(* ===================================================================== *)

Module Client.
Import Engine.

(** [type GameMode = 'single' | 'multi' | 'offline' | null] *)
Inductive GameMode : Type := single | multi | offline.

Global Instance GameMode_eq_dec : EqDecision GameMode.
Proof. solve_decision. Defined.

(** [{ X: 0, O: 0, Draws: 0 }] *)
Record Tally : Type := mkTally { X_won : nat; O_won : nat; Draws : nat }.

(** [{ single: ..., multi: ..., offline: ... }] *)
Record Scores : Type := mkScores {
  of_single : Tally;
  of_multi : Tally;
  of_offline : Tally
}.

(** [prev[mode]] *)
Definition tally (m : GameMode) (s : Scores) : Tally :=
  match m with
  | single => of_single s
  | multi => of_multi s
  | offline => of_offline s
  end.

(** [{ ...prev, [mode]: t }] *)
Definition with_tally (m : GameMode) (t : Tally) (s : Scores) : Scores :=
  match m with
  | single => mkScores t (of_multi s) (of_offline s)
  | multi => mkScores (of_single s) t (of_offline s)
  | offline => mkScores (of_single s) (of_multi s) t
  end.

(** The [useState] cells of [App].  [socket] keeps only whether a socket is
    held; the [copied] flag of the clipboard button is left out. *)
Record App : Type := mkApp {
  mode : option GameMode;
  board : list Player;
  isXNext : bool;
  winner : option Winner;
  winningLine : option (nat * nat * nat);
  scores : Scores;
  userSymbol : Player;
  showSymbolSelection : bool;
  socket : bool;
  roomCode : string;
  mySymbol : Player;
  isMultiReady : bool;
  error : option string
}.

(** The setters.  A handler reads the cells as they were when it started
    and queues its updates; each setter below writes one cell. *)
Definition setMode (v : option GameMode) (a : App) : App :=
  mkApp v (board a) (isXNext a) (winner a) (winningLine a) (scores a)
        (userSymbol a) (showSymbolSelection a) (socket a) (roomCode a)
        (mySymbol a) (isMultiReady a) (error a).
Definition setBoard (v : list Player) (a : App) : App :=
  mkApp (mode a) v (isXNext a) (winner a) (winningLine a) (scores a)
        (userSymbol a) (showSymbolSelection a) (socket a) (roomCode a)
        (mySymbol a) (isMultiReady a) (error a).
Definition setIsXNext (v : bool) (a : App) : App :=
  mkApp (mode a) (board a) v (winner a) (winningLine a) (scores a)
        (userSymbol a) (showSymbolSelection a) (socket a) (roomCode a)
        (mySymbol a) (isMultiReady a) (error a).
Definition setWinner (v : option Winner) (a : App) : App :=
  mkApp (mode a) (board a) (isXNext a) v (winningLine a) (scores a)
        (userSymbol a) (showSymbolSelection a) (socket a) (roomCode a)
        (mySymbol a) (isMultiReady a) (error a).
Definition setWinningLine (v : option (nat * nat * nat)) (a : App) : App :=
  mkApp (mode a) (board a) (isXNext a) (winner a) v (scores a)
        (userSymbol a) (showSymbolSelection a) (socket a) (roomCode a)
        (mySymbol a) (isMultiReady a) (error a).
Definition setScores (f : Scores → Scores) (a : App) : App :=
  mkApp (mode a) (board a) (isXNext a) (winner a) (winningLine a)
        (f (scores a))
        (userSymbol a) (showSymbolSelection a) (socket a) (roomCode a)
        (mySymbol a) (isMultiReady a) (error a).
Definition setUserSymbol (v : Player) (a : App) : App :=
  mkApp (mode a) (board a) (isXNext a) (winner a) (winningLine a) (scores a)
        v (showSymbolSelection a) (socket a) (roomCode a)
        (mySymbol a) (isMultiReady a) (error a).
Definition setShowSymbolSelection (v : bool) (a : App) : App :=
  mkApp (mode a) (board a) (isXNext a) (winner a) (winningLine a) (scores a)
        (userSymbol a) v (socket a) (roomCode a)
        (mySymbol a) (isMultiReady a) (error a).
Definition setSocket (v : bool) (a : App) : App :=
  mkApp (mode a) (board a) (isXNext a) (winner a) (winningLine a) (scores a)
        (userSymbol a) (showSymbolSelection a) v (roomCode a)
        (mySymbol a) (isMultiReady a) (error a).
Definition setMySymbol (v : Player) (a : App) : App :=
  mkApp (mode a) (board a) (isXNext a) (winner a) (winningLine a) (scores a)
        (userSymbol a) (showSymbolSelection a) (socket a) (roomCode a)
        v (isMultiReady a) (error a).
Definition setIsMultiReady (v : bool) (a : App) : App :=
  mkApp (mode a) (board a) (isXNext a) (winner a) (winningLine a) (scores a)
        (userSymbol a) (showSymbolSelection a) (socket a) (roomCode a)
        (mySymbol a) v (error a).
Definition setError (v : option string) (a : App) : App :=
  mkApp (mode a) (board a) (isXNext a) (winner a) (winningLine a) (scores a)
        (userSymbol a) (showSymbolSelection a) (socket a) (roomCode a)
        (mySymbol a) (isMultiReady a) v.

(** The initial values of the [useState] cells. *)
Definition no_score : Tally := mkTally 0 0 0.
Definition start : App :=
  mkApp None empty_board true None None
        (mkScores no_score no_score no_score)
        None false false "" None false None.

(** What the client sends on its socket. *)
Inductive Sent : Type :=
| sent_make_move (roomCode : string) (index : nat) (symbol : Player)
| sent_reset_game (roomCode : string)
| sent_disconnect.

(** [isXNext ? 'X' : 'O'] *)
Definition turn_mark (isXNext : bool) : Mark := if isXNext then X else O.

(** The row [updateScores] writes for [res]. *)
Definition counted (res : Winner) (t : Tally) : Tally :=
  mkTally (if bool_decide (res = Won X) then X_won t + 1 else X_won t)
          (if bool_decide (res = Won O) then O_won t + 1 else O_won t)
          (if bool_decide (res = Draw) then Draws t + 1 else Draws t).

(** [updateScores]; [mode_] is the [mode] its closure holds. *)
Definition updateScores (mode_ : option GameMode) (res : Winner) (a : App) : App :=
  match mode_ with
  | None => a
  | Some m => setScores (λ prev, with_tally m (counted res (tally m prev)) prev) a
  end.

(** [if (result) { setWinner(result.winner); setWinningLine(result.line);
    updateScores(result.winner); }], which ends the click handler, the
    computer's turn and the [move_made] handler. *)
Definition announce (mode_ : option GameMode) (result : option Result) (a : App)
  : App :=
  match result with
  | Some r =>
      updateScores mode_ (Engine.winner r)
        (setWinningLine (line r) (setWinner (Some (Engine.winner r)) a))
  | None => a
  end.

(** [handleSquareClick] *)
Definition handleSquareClick (index : nat) (a : App) : App * list Sent :=
  if truthy (board a !! index) || bool_decide (winner a ≠ None) then (a, [])
  else if bool_decide (mode a = Some single)
          && bool_decide (Some (turn_mark (isXNext a)) ≠ userSymbol a)
  then (a, [])
  else if bool_decide (mode a = Some multi) then
    if negb (isMultiReady a)
       || (isXNext a && bool_decide (mySymbol a ≠ Some X))
       || (negb (isXNext a) && bool_decide (mySymbol a ≠ Some O))
    then (a, [])
    else
      (a, if socket a then [sent_make_move (roomCode a) index (mySymbol a)]
          else [])
  else
    let newBoard := <[index := Some (turn_mark (isXNext a))]> (board a) in
    (announce (mode a) (checkWinner newBoard)
       (setIsXNext (negb (isXNext a)) (setBoard newBoard a)),
     []).

(** The computer's turn: the callback of the timer that the [useEffect]
    sets.  The effect clears the timer whenever one of the cells it reads
    changes, so the callback runs on the state it was set in. *)
Definition aiEffect (a : App) : App :=
  if bool_decide (mode a = Some single)
     && bool_decide (userSymbol a ≠ None)
     && bool_decide (Some (turn_mark (isXNext a)) ≠ userSymbol a)
     && bool_decide (winner a = None)
  then
    let aiSymbol := if bool_decide (userSymbol a = Some X) then O else X in
    match aiTurn (board a) aiSymbol with
    | Some newBoard =>
        announce (mode a) (checkWinner newBoard)
          (setIsXNext (if bool_decide (aiSymbol = X) then false else true)
             (setBoard newBoard a))
    | None => a
    end
  else a.

(** [resetGame] *)
Definition resetGame (a : App) : App * list Sent :=
  if bool_decide (mode a = Some multi) then
    (a, if socket a then [sent_reset_game (roomCode a)] else [])
  else
    (setWinningLine None
       (setWinner None (setIsXNext true (setBoard empty_board a))),
     []).

(** [quitGame] *)
Definition quitGame (a : App) : App * list Sent :=
  let cleared :=
    match mode a with
    | Some m => setScores (with_tally m no_score) a
    | None => a
    end in
  (setShowSymbolSelection false
     (setUserSymbol None
        (setMySymbol None
           (setIsMultiReady false
              (setSocket false
                 (setWinningLine None
                    (setWinner None
                       (setIsXNext true
                          (setBoard empty_board (setMode None cleared))))))))),
   if socket a then [sent_disconnect] else []).

(** The mode buttons of the menu. *)
Definition selectMode (m : GameMode) (a : App) : App :=
  match m with
  | single => setShowSymbolSelection true (setMode (Some single) a)
  | _ => setMode (Some m) a
  end.

(** The two buttons of "Choose Your Symbol". *)
Definition chooseSymbol (s : Mark) (a : App) : App :=
  setShowSymbolSelection false (setUserSymbol (Some s) a).

(** The socket handlers that [joinMultiplayer] installs.  The join form is
    on screen only in mode ['multi'], so the [updateScores] of their
    closure holds that mode. *)
Definition on_player_assignment (symbol : Player) (a : App) : App :=
  setError None (setMySymbol symbol a).

Definition on_game_ready (b : list Player) (turn : string) (a : App) : App :=
  setIsMultiReady true (setIsXNext (bool_decide (turn = "X")) (setBoard b a)).

Definition on_move_made (b : list Player) (turn : string) (a : App) : App :=
  announce (Some multi) (checkWinner b)
    (setIsXNext (bool_decide (turn = "X")) (setBoard b a)).

Definition on_game_reset (b : list Player) (turn : string) (a : App) : App :=
  setWinningLine None
    (setWinner None (setIsXNext (bool_decide (turn = "X")) (setBoard b a))).

Definition on_error (msg : string) (a : App) : App * list Sent :=
  (setSocket false (setError (Some msg) a), [sent_disconnect]).

(** ** A session on one device *)

(** What the user and the timer can do.  Creating and joining a room are
    not among them: they draw a random code and open a socket. *)
Inductive Action : Type :=
| SelectMode (m : GameMode)
| ChooseSymbol (s : Mark)
| Click (i : nat)
| AiTimer
| ResetGame
| QuitGame.

(** The board and the reset button are on screen: a mode is chosen, and the
    symbol form (mode ['single']) or the join form (mode ['multi']) is
    not. *)
Definition shows_board (a : App) : bool :=
  match mode a with
  | None => false
  | Some single => negb (showSymbolSelection a)
  | Some multi => isMultiReady a
  | Some offline => true
  end.

(** The control of an action is on screen (the timer needs none). *)
Definition enabled (a : App) (act : Action) : bool :=
  match act with
  | SelectMode _ => bool_decide (mode a = None)
  | ChooseSymbol _ => bool_decide (mode a = Some single) && showSymbolSelection a
  | Click i => shows_board a && bool_decide (i < length (board a))
  | AiTimer => true
  | ResetGame => shows_board a
  | QuitGame => bool_decide (mode a ≠ None)
  end.

Definition handler (act : Action) (a : App) : App :=
  match act with
  | SelectMode m => selectMode m a
  | ChooseSymbol s => chooseSymbol s a
  | Click i => (handleSquareClick i a).1
  | AiTimer => aiEffect a
  | ResetGame => (resetGame a).1
  | QuitGame => (quitGame a).1
  end.

Definition act (a : App) (action : Action) : App :=
  if enabled a action then handler action a else a.

Definition session (actions : list Action) : App := fold_left act actions start.

(** How many cells hold the mark [p]. *)
Definition marked (p : Mark) (b : list Player) : nat :=
  length (filter (λ c : Player, c = Some p) b).

(** What a session keeps true of the board on screen: nine cells, X one
    ahead exactly when it is O's turn, and the banner and the highlighted
    line are what [checkWinner] says of the board. *)
Definition screen_ok (a : App) : Prop :=
  length (board a) = 9
  ∧ marked X (board a) = marked O (board a) + (if isXNext a then 0 else 1)
  ∧ winner a = Engine.winner <$> checkWinner (board a)
  ∧ winningLine a = checkWinner (board a) ≫= line.

(** The state after a mark of the side to move is put on cell [i] and the
    result is announced: what a click in a local game and the computer's
    turn both do. *)
Definition placed (m : option GameMode) (i : nat) (a : App) : App :=
  announce m (checkWinner (<[i := Some (turn_mark (isXNext a))]> (board a)))
    (setIsXNext (negb (isXNext a))
       (setBoard (<[i := Some (turn_mark (isXNext a))]> (board a)) a)).

(** What a session keeps true of the game against the computer: the
    user's symbol is set only in mode ['single'] and after the symbol form;
    before it is set (outside a two-player local game) the board is
    untouched; and once it is set, no line of play from the position on
    screen ends with the user winning. *)
Definition solo_ok (a : App) : Prop :=
  (mode a ≠ Some single → userSymbol a = None)
  ∧ (userSymbol a = None → mode a ≠ Some offline →
     board a = empty_board ∧ isXNext a = true)
  ∧ (showSymbolSelection a = true → userSymbol a = None)
  ∧ (∀ u, userSymbol a = Some u → winner a = None →
          ∃ k, survives k (opponent u) (board a) (turn_mark (isXNext a)) = true)
  ∧ (∀ u, userSymbol a = Some u → winner a ≠ Some (Won u)).


End Client.

(* ===================================================================== *)
(** * Client and server together                                          *)
(* ===================================================================== *)

Module Online.
Import Engine Client.

(** The marks travel as the strings ['X'] and ['O'], [null] as [null]. *)
Definition wire_mark (p : Mark) : string :=
  match p with X => "X" | O => "O" end.

Definition wire_cell (c : Player) : option string := wire_mark <$> c.

Definition wire_board (b : list Player) : list (option string) :=
  wire_cell <$> b.

Definition read_mark (s : string) : option Mark :=
  if bool_decide (s = "X") then Some X
  else if bool_decide (s = "O") then Some O
  else None.

Definition read_cell (c : option string) : option Player :=
  match c with
  | None => Some None
  | Some s => Some <$> read_mark s
  end.

Definition read_board (b : list (option string)) : option (list Player) :=
  mapM read_cell b.

(** What the server is handed for a message the client sends.  A
    [make_move] whose symbol is [null] carries no string. *)
Definition wire (s : Sent) : option Server.ClientMsg :=
  match s with
  | sent_make_move code i (Some p) =>
      Some (Server.make_move code (Z.of_nat i) (wire_mark p))
  | sent_make_move _ _ None => None
  | sent_reset_game code => Some (Server.reset_game code)
  | sent_disconnect => Some Server.disconnect
  end.

(** The socket handler that runs for a message of the server, on a board
    whose cells are [null], ['X'] or ['O']. *)
Definition receive (m : Server.ServerMsg) (a : App) : option App :=
  match m with
  | Server.player_assignment s =>
      p ← read_mark s; Some (on_player_assignment (Some p) a)
  | Server.game_ready b t => cb ← read_board b; Some (on_game_ready cb t a)
  | Server.move_made b t => cb ← read_board b; Some (on_move_made cb t a)
  | Server.game_reset b t => cb ← read_board b; Some (on_game_reset cb t a)
  | Server.error msg => Some (on_error msg a).1
  end.

(** The client shows the room's board and turn. *)
Definition synced (a : App) (room : Server.Room) : Prop :=
  wire_board (board a) = Server.board room
  ∧ isXNext a = bool_decide (Server.turn room = "X").

(** The conditions under which a click goes to the server. *)
Definition may_send (i : nat) (a : App) : Prop :=
  socket a = true ∧ isMultiReady a = true
  ∧ truthy (board a !! i) = false ∧ winner a = None
  ∧ mySymbol a = Some (turn_mark (isXNext a)).

End Online.

(* ===================================================================== *)
(** * Properties of the relay server                                      *)
(* ===================================================================== *)

Module ServerSpec.
Import Server.

(** ** Reading and writing a board *)

Lemma array_get_Some (b : list Cell) (index : Z) (c : Cell) :
  array_get b index = Some c →
  (0 ≤ index)%Z ∧ Z.to_nat index < length b ∧ b !! Z.to_nat index = Some c.
Proof.
  unfold array_get. case_bool_decide; [|done].
  intros Hget. split; [done|]. split; [|done].
  by eapply lookup_lt_Some.
Qed.

Lemma array_get_outside (b : list Cell) (index : Z) :
  (index < 0 ∨ Z.of_nat (length b) ≤ index)%Z → array_get b index = None.
Proof.
  intros Hout. unfold array_get. case_bool_decide; [|done].
  apply lookup_ge_None. lia.
Qed.

Lemma array_get_set (b : list Cell) (index : Z) (symbol : string) :
  array_get b index = Some None →
  array_get (array_set b index symbol) index = Some (Some symbol).
Proof.
  intros (Hpos & Hlt & _)%array_get_Some.
  unfold array_get, array_set. rewrite bool_decide_eq_true_2 by done.
  by apply list_lookup_insert_eq.
Qed.

Lemma array_set_other (b : list Cell) (index : Z) (symbol : string) (j : nat) :
  j ≠ Z.to_nat index → array_set b index symbol !! j = b !! j.
Proof. intros Hne. unfold array_set. by apply list_lookup_insert_ne. Qed.

Lemma next_turn_X : next_turn "X" = "O".
Proof. reflexivity. Qed.

Lemma next_turn_O : next_turn "O" = "X".
Proof. reflexivity. Qed.

(** ** The event loop *)

Lemma run_cons st socket m tr :
  run st ((socket, m) :: tr) =
  ((run (handle socket m st).1 tr).1,
   (handle socket m st).2 ++ (run (handle socket m st).1 tr).2).
Proof.
  simpl. destruct (handle socket m st) as [st1 out1]. simpl.
  by destruct (run st1 tr).
Qed.

Lemma run_app st tr1 tr2 :
  run st (tr1 ++ tr2) =
  ((run (run st tr1).1 tr2).1, (run st tr1).2 ++ (run (run st tr1).1 tr2).2).
Proof.
  revert st. induction tr1 as [|[socket m] tr1 IH]; intros st.
  - simpl. by destruct (run st tr2).
  - rewrite <- app_comm_cons, !run_cons, IH. simpl. by rewrite app_assoc.
Qed.

(** ** What every room of a reachable state looks like *)

Lemma init_ok : state_ok init.
Proof. intros code room Hl. simpl in Hl. by rewrite lookup_empty in Hl. Qed.

Lemma state_ok_insert st code room grp :
  state_ok st → room_ok room →
  state_ok (mkState (<[code := room]> (rooms st)) grp).
Proof.
  intros Hok Hroom code' room'. simpl.
  destruct (decide (code = code')) as [->|Hne].
  - rewrite lookup_insert_eq. by intros [= <-].
  - rewrite lookup_insert_ne by done. apply Hok.
Qed.

Lemma handle_ok socket m st : state_ok st → state_ok (handle socket m st).1.
Proof.
  intros Hok. destruct m as [code|code index symbol|code|]; simpl.
  - unfold on_join_room. destruct (rooms st !! code) as [room|] eqn:Hroom.
    + case_bool_decide; simpl.
      * apply state_ok_insert; [done|]. apply (Hok _ _ Hroom).
      * done.
    + apply state_ok_insert; [done|]. split; [done | by left].
  - unfold on_make_move. destruct (rooms st !! code) as [room|] eqn:Hroom; [|done].
    destruct (bool_decide (array_get (board room) index = Some None)
              && bool_decide (turn room = symbol)) eqn:Hcond; [|done].
    apply andb_prop in Hcond as [_ Hturn%bool_decide_eq_true_1].
    apply state_ok_insert; [done|].
    destruct (Hok _ _ Hroom) as [Hlen Hxo]. split; simpl.
    + unfold array_set. by rewrite length_insert.
    + subst symbol. destruct Hxo as [-> | ->]; [by right | by left].
  - unfold on_reset_game. destruct (rooms st !! code) as [room|] eqn:Hroom; [|done].
    apply state_ok_insert; [done|]. split; [done | by left].
  - done.
Qed.

Lemma run_ok st tr : state_ok st → state_ok (run st tr).1.
Proof.
  revert st. induction tr as [|[socket m] tr IH]; intros st Hok; [done|].
  rewrite run_cons. simpl. by apply IH, handle_ok.
Qed.

Lemma reachable_ok st : reachable st → state_ok st.
Proof. intros [tr <-]. apply run_ok, init_ok. Qed.

Lemma reachable_init : reachable init.
Proof. by exists []. Qed.

Lemma reachable_run tr : reachable (run init tr).1.
Proof. by exists tr. Qed.

Lemma reachable_handle socket m st :
  reachable st → reachable (handle socket m st).1.
Proof.
  intros [tr <-]. exists (tr ++ [(socket, m)]).
  rewrite run_app. simpl. by destruct (handle socket m (run init tr).1).
Qed.

(** ** The sequence test of the specification *)

(** join(A) as X, join(A) as O, move(A,0,X), move(A,0,O) refused,
    move(A,4,O), reset(A). *)
Example sequence_test :
  let tr := [("s1", join_room "A"); ("s2", join_room "A");
             ("s1", make_move "A" 0 "X"); ("s2", make_move "A" 0 "O");
             ("s2", make_move "A" 4 "O"); ("s1", reset_game "A")] in
  ∃ both : gset string,
    "s1" ∈ both ∧ "s2" ∈ both
    ∧ (run init tr).2 =
        [Unicast "s1" (player_assignment "X");
         Unicast "s2" (player_assignment "O");
         Broadcast "A" both (game_ready empty_board "X");
         Broadcast "A" both
           (move_made [Some "X"; None; None; None; None; None; None; None; None]
                      "O");
         Broadcast "A" both
           (move_made [Some "X"; None; None; None; Some "O"; None; None; None; None]
                      "X");
         Broadcast "A" both (game_reset empty_board "X")]
    ∧ rooms (run init tr).1 !! "A" = Some (mkRoom ["s1"; "s2"] empty_board "X").
Proof.
  exists ({["s2"]} ∪ ({["s1"]} ∪ ∅)).
  split; [set_solver|]. split; [set_solver|].
  split; vm_compute; reflexivity.
Qed.

(** ** What a message leaves alone *)

Lemma members_join socket code st code' :
  members (mkState (rooms st) (socket_join socket code st)) code' =
  if decide (code = code') then {[socket]} ∪ members st code else members st code'.
Proof.
  unfold members at 1, socket_join. simpl.
  destruct (decide (code = code')) as [->|Hne].
  - by rewrite lookup_insert_eq.
  - by rewrite lookup_insert_ne.
Qed.

Lemma members_groups st st' code :
  groups st' = groups st → members st' code = members st code.
Proof. unfold members. by intros ->. Qed.

Lemma members_disconnect socket st code :
  members (on_disconnect socket st).1 code = members st code ∖ {[socket]}.
Proof.
  unfold members, on_disconnect. simpl. rewrite lookup_fmap.
  destruct (groups st !! code); simpl; [done|].
  symmetry. by apply empty_difference_L.
Qed.

Lemma groups_join socket code st :
  groups (on_join_room socket code st).1 = socket_join socket code st.
Proof.
  unfold on_join_room. destruct (rooms st !! code); [|done].
  by case_bool_decide.
Qed.

Lemma groups_make_move code index symbol st :
  groups (on_make_move code index symbol st).1 = groups st.
Proof.
  unfold on_make_move. destruct (rooms st !! code) as [room|]; [|done].
  by destruct (bool_decide _ && bool_decide _).
Qed.

Lemma groups_reset_game code st :
  groups (on_reset_game code st).1 = groups st.
Proof. unfold on_reset_game. by destruct (rooms st !! code). Qed.

(** A socket stays in a broadcast group until it disconnects. *)
Lemma handle_keeps_member socket m st code s :
  s ∈ members st code →
  (socket, m) ≠ (s, disconnect) →
  s ∈ members (handle socket m st).1 code.
Proof.
  intros Hin Hne. destruct m as [code'|code' index symbol|code'|]; cbn [handle].
  - unfold members at 1. rewrite groups_join.
    change (s ∈ members (mkState (rooms st) (socket_join socket code' st)) code).
    rewrite members_join. case_decide; [subst; set_solver | done].
  - by rewrite (members_groups st) by apply groups_make_move.
  - by rewrite (members_groups st) by apply groups_reset_game.
  - rewrite members_disconnect. apply elem_of_difference. split; [done|].
    intros ->%elem_of_singleton. done.
Qed.

Lemma run_keeps_member st tr code s :
  s ∈ members st code →
  (s, disconnect) ∉ tr →
  s ∈ members (run st tr).1 code.
Proof.
  revert st. induction tr as [|[socket m] tr IH]; intros st Hin Hno; [done|].
  apply not_elem_of_cons in Hno as [Hne Hno].
  rewrite run_cons. simpl. apply IH; [|done].
  apply handle_keeps_member; [done | congruence].
Qed.

(** A broadcast for a room reaches at least the sockets that were in the
    room's group when the message came in. *)
Lemma handle_broadcast_members socket msg st code recipients m :
  Broadcast code recipients m ∈ (handle socket msg st).2 →
  members st code ⊆ recipients.
Proof.
  destruct msg as [code'|code' index symbol|code'|]; simpl.
  - unfold on_join_room. destruct (rooms st !! code') as [room|]; simpl.
    + case_bool_decide; simpl.
      * intros [Hh|Ht]%elem_of_cons; [done|].
        apply list_elem_of_singleton in Ht. injection Ht as -> -> _. set_solver.
      * intros Hh%list_elem_of_singleton. done.
    + intros Hh%list_elem_of_singleton. done.
  - unfold on_make_move. destruct (rooms st !! code') as [room|]; simpl;
      [|by intros ?%elem_of_nil].
    destruct (_ && _); simpl; [|by intros ?%elem_of_nil].
    intros Hh%list_elem_of_singleton. by injection Hh as -> -> _.
  - unfold on_reset_game. destruct (rooms st !! code') as [room|]; simpl;
      [|by intros ?%elem_of_nil].
    intros Hh%list_elem_of_singleton. by injection Hh as -> -> _.
  - by intros ?%elem_of_nil.
Qed.

Lemma run_broadcast_member st tr code s recipients m :
  s ∈ members st code →
  (s, disconnect) ∉ tr →
  Broadcast code recipients m ∈ (run st tr).2 →
  s ∈ recipients.
Proof.
  revert st. induction tr as [|[socket msg] tr IH]; intros st Hin Hno Hout.
  - by apply elem_of_nil in Hout.
  - apply not_elem_of_cons in Hno as [Hne Hno].
    rewrite run_cons in Hout. simpl in Hout.
    apply elem_of_app in Hout as [Hnow|Hlater].
    + by apply (handle_broadcast_members _ _ _ _ _ _ Hnow).
    + apply (IH (handle socket msg st).1); [|done..].
      apply handle_keeps_member; [done | congruence].
Qed.

(** Only [join_room] changes who is in a room, and only a move changes a
    fresh board and turn. *)
Lemma handle_keeps_room socket m st code room :
  rooms st !! code = Some room →
  m ≠ join_room code →
  ∃ room', rooms (handle socket m st).1 !! code = Some room'
           ∧ players room' = players room
           ∧ ((∀ index symbol, m ≠ make_move code index symbol) →
              board room = empty_board → turn room = "X" →
              board room' = empty_board ∧ turn room' = "X").
Proof.
  intros Hroom Hnj. destruct m as [code'|code' index symbol|code'|]; simpl.
  - assert (code' ≠ code) as Hne by congruence.
    exists room. split; [|done].
    unfold on_join_room. destruct (rooms st !! code') as [room0|]; simpl.
    + case_bool_decide; simpl; [by rewrite lookup_insert_ne | done].
    + by rewrite lookup_insert_ne.
  - unfold on_make_move. destruct (rooms st !! code') as [room0|] eqn:Hroom0;
      [|by exists room].
    destruct (_ && _); [|by exists room]. simpl.
    destruct (decide (code' = code)) as [->|Hne].
    + rewrite lookup_insert_eq. eexists. split; [done|]. simpl.
      split; [congruence|]. intros Hnm. by destruct (Hnm index symbol).
    + rewrite lookup_insert_ne by done. by exists room.
  - unfold on_reset_game. destruct (rooms st !! code') as [room0|] eqn:Hroom0;
      [|by exists room]. simpl.
    destruct (decide (code' = code)) as [->|Hne].
    + rewrite lookup_insert_eq. eexists. split; [done|]. simpl.
      split; [congruence | done].
    + rewrite lookup_insert_ne by done. by exists room.
  - by exists room.
Qed.

Lemma run_keeps_room st tr code room :
  rooms st !! code = Some room →
  (∀ s, (s, join_room code) ∉ tr) →
  ∃ room', rooms (run st tr).1 !! code = Some room'
           ∧ players room' = players room
           ∧ ((∀ s index symbol, (s, make_move code index symbol) ∉ tr) →
              board room = empty_board → turn room = "X" →
              board room' = empty_board ∧ turn room' = "X").
Proof.
  revert st room. induction tr as [|[socket m] tr IH]; intros st room Hroom Hnj.
  - by exists room.
  - rewrite run_cons. simpl.
    destruct (handle_keeps_room socket m st code room Hroom) as
      (room1 & Hroom1 & Hp1 & Hfresh1).
    { intros ->. apply (Hnj socket). by left. }
    destruct (IH _ room1 Hroom1) as (room2 & Hroom2 & Hp2 & Hfresh2).
    { intros s Hin. apply (Hnj s). by right. }
    exists room2. split; [done|]. split; [congruence|].
    intros Hnm Hb Ht. destruct Hfresh1 as [Hb1 Ht1]; [|done..|].
    { intros index symbol ->. apply (Hnm socket index symbol). by left. }
    apply Hfresh2; [|done..].
    intros s index symbol Hin. apply (Hnm s index symbol). by right.
Qed.

(** ** The guard of [make_move] *)

Lemma on_make_move_allowed st code index symbol room :
  rooms st !! code = Some room →
  array_get (board room) index = Some None →
  turn room = symbol →
  on_make_move code index symbol st =
  (moved st code room index symbol,
   [Broadcast code (members st code)
              (move_made (array_set (board room) index symbol)
                         (next_turn symbol))]).
Proof.
  intros Hroom Hcell Hturn. unfold on_make_move. rewrite Hroom.
  by rewrite !bool_decide_eq_true_2.
Qed.

Lemma on_make_move_refused st code index symbol :
  ¬ move_allowed st code index symbol →
  on_make_move code index symbol st = (st, []).
Proof.
  intros Hno. unfold on_make_move.
  destruct (rooms st !! code) as [room|] eqn:Hroom; [|done].
  destruct (bool_decide (array_get (board room) index = Some None)
            && bool_decide (turn room = symbol)) eqn:Hcond; [|done].
  apply andb_prop in Hcond as [Hc%bool_decide_eq_true_1 Ht%bool_decide_eq_true_1].
  destruct Hno. by exists room.
Qed.

Lemma move_allowed_dec st code index symbol :
  move_allowed st code index symbol ∨ ¬ move_allowed st code index symbol.
Proof.
  unfold move_allowed. destruct (rooms st !! code) as [room|] eqn:Hroom.
  - destruct (decide (array_get (board room) index = Some None)) as [Hc|Hc];
      [destruct (decide (turn room = symbol)) as [Ht|Ht]|].
    + left. by exists room.
    + right. intros (room' & [= <-] & _ & Ht'). done.
    + right. intros (room' & [= <-] & Hc' & _). done.
  - right. intros (room' & [=] & _).
Qed.

(** C1.  A [make_move] is taken exactly when the room exists, the target
    cell holds [null] and the room's turn is the claimed symbol; the sending
    connection plays no part.  When taken, the symbol is written into the
    cell, the turn marker becomes the other symbol, and the new board and
    turn are broadcast to the room; when refused, nothing is sent and the
    whole state is unchanged. *)
Theorem make_move_accepted_iff st socket code index symbol :
  let result := handle socket (make_move code index symbol) st in
  (emits_move_made result.2 ↔ move_allowed st code index symbol)
  ∧ (∀ socket', handle socket' (make_move code index symbol) st = result)
  ∧ (∀ room,
       rooms st !! code = Some room →
       array_get (board room) index = Some None →
       turn room = symbol →
       result.1 = moved st code room index symbol
       ∧ result.2 = [Broadcast code (members st code)
                       (move_made (array_set (board room) index symbol)
                                  (next_turn (turn room)))]
       ∧ array_get (array_set (board room) index symbol) index = Some (Some symbol)
       ∧ (∀ j, j ≠ Z.to_nat index →
               array_set (board room) index symbol !! j = board room !! j)
       ∧ (turn room = "X" → next_turn (turn room) = "O")
       ∧ (turn room = "O" → next_turn (turn room) = "X"))
  ∧ (¬ move_allowed st code index symbol → result = (st, [])).
Proof.
  simpl. split; [|split; [done|split]].
  - split.
    + intros Hout. destruct (move_allowed_dec st code index symbol) as [|Hno]; [done|].
      rewrite (on_make_move_refused _ _ _ _ Hno) in Hout.
      destruct Hout as (c & r & b & t & Hin). by apply elem_of_nil in Hin.
    + intros (room & Hroom & Hcell & Hturn).
      rewrite (on_make_move_allowed _ _ _ _ _ Hroom Hcell Hturn).
      do 4 eexists. apply list_elem_of_singleton. reflexivity.
  - intros room Hroom Hcell Hturn.
    rewrite (on_make_move_allowed _ _ _ _ _ Hroom Hcell Hturn). simpl.
    split; [done|]. split; [by rewrite Hturn|].
    split; [by apply array_get_set|].
    split; [intros j Hj; by apply array_set_other|].
    split; intros ->; reflexivity.
  - apply on_make_move_refused.
Qed.

(** ** Joining *)

Lemma on_join_room_new st socket code :
  rooms st !! code = None →
  on_join_room socket code st =
  (mkState (<[code := mkRoom [socket] empty_board "X"]> (rooms st))
           (socket_join socket code st),
   [Unicast socket (player_assignment "X")]).
Proof. intros Hroom. unfold on_join_room. by rewrite Hroom. Qed.

Lemma on_join_room_second st socket code room :
  rooms st !! code = Some room →
  length (players room) < 2 →
  on_join_room socket code st =
  (mkState (<[code := mkRoom (players room ++ [socket]) (board room) (turn room)]>
              (rooms st))
           (socket_join socket code st),
   [Unicast socket (player_assignment "O");
    Broadcast code ({[socket]} ∪ members st code)
              (game_ready (board room) (turn room))]).
Proof.
  intros Hroom Hlen. unfold on_join_room. rewrite Hroom.
  by rewrite bool_decide_eq_true_2.
Qed.

Lemma on_join_room_full st socket code room :
  rooms st !! code = Some room →
  2 ≤ length (players room) →
  on_join_room socket code st =
  (mkState (rooms st) (socket_join socket code st),
   [Unicast socket (error "Room is full")]).
Proof.
  intros Hroom Hlen. unfold on_join_room. rewrite Hroom.
  rewrite bool_decide_eq_false_2; [done | lia].
Qed.

(** The joiner is subscribed whatever the handler answers. *)
Lemma on_join_room_subscribes st socket code :
  socket ∈ members (on_join_room socket code st).1 code.
Proof.
  unfold members. rewrite groups_join. unfold socket_join.
  rewrite lookup_insert_eq. simpl. set_solver.
Qed.

Lemma on_join_room_error st socket code :
  (on_join_room socket code st).2 = [Unicast socket (error "Room is full")] →
  rooms (on_join_room socket code st).1 = rooms st.
Proof.
  unfold on_join_room. destruct (rooms st !! code) as [room|]; [|done].
  by case_bool_decide.
Qed.

(** C2 (first half and the second join as the code has it).  On a room code
    the registry does not know, [join_room] creates the room with an empty
    board and turn X, with the joiner as its only participant, and answers
    the joiner alone with assignment X.  The next [join_room] for that code
    appends its sender, answers it with assignment O and broadcasts
    [game_ready] to the room's group, which holds the first participant
    unless it disconnected; the message carries the room's board and turn
    as they are then, which are the empty board and X when no [make_move]
    for the room came in between. *)
Theorem join_room_first_then_second st code s1 s2 tr :
  rooms st !! code = None →
  (∀ s, (s, join_room code) ∉ tr) →
  let first := handle s1 (join_room code) st in
  let between := run first.1 tr in
  let second := handle s2 (join_room code) between.1 in
  first.2 = [Unicast s1 (player_assignment "X")]
  ∧ rooms first.1 = <[code := mkRoom [s1] empty_board "X"]> (rooms st)
  ∧ ∃ room,
      rooms between.1 !! code = Some room
      ∧ players room = [s1]
      ∧ rooms second.1 =
          <[code := mkRoom [s1; s2] (board room) (turn room)]> (rooms between.1)
      ∧ second.2 = [Unicast s2 (player_assignment "O");
                    Broadcast code ({[s2]} ∪ members between.1 code)
                              (game_ready (board room) (turn room))]
      ∧ ((s1, disconnect) ∉ tr → s1 ∈ members between.1 code)
      ∧ ((∀ s index symbol, (s, make_move code index symbol) ∉ tr) →
         board room = empty_board ∧ turn room = "X").
Proof.
  intros Hfresh Hnj. cbn [handle]. cbv zeta.
  rewrite (on_join_room_new _ _ _ Hfresh). cbn [fst snd].
  split; [done|]. split; [done|].
  set (st1 := mkState _ _).
  assert (rooms st1 !! code = Some (mkRoom [s1] empty_board "X")) as Hroom1.
  { subst st1. simpl. by rewrite lookup_insert_eq. }
  destruct (run_keeps_room st1 tr code _ Hroom1 Hnj) as (room & Hroom & Hp & Hb).
  simpl in Hp. exists room. split; [done|]. split; [done|].
  rewrite (on_join_room_second _ _ _ _ Hroom) by (rewrite Hp; simpl; lia).
  cbn [fst snd rooms]. rewrite Hp. split; [done|]. split; [done|]. split.
  - intros Hnd. apply run_keeps_member; [|done].
    subst st1. unfold members, socket_join. simpl.
    rewrite lookup_insert_eq. simpl.
    apply elem_of_union. left. by apply elem_of_singleton.
  - intros Hnm. exact (Hb Hnm eq_refl eq_refl).
Qed.

Lemma join_room_first_then_second_witness :
  rooms init !! "A" = None
  ∧ (handle "s1" (join_room "A") init).2 = [Unicast "s1" (player_assignment "X")].
Proof.
  split; [reflexivity|].
  refine (proj1 (join_room_first_then_second init "A" "s1" "s2"
                   [("s1", reset_game "A")] _ _)).
  - reflexivity.
  - intros s Hin%list_elem_of_singleton. discriminate Hin.
Defined.

(** C2 as stated fails: a move taken between the two joins shows up in
    [game_ready]. *)
Lemma game_ready_after_early_move :
  let st := (run init [("s1", join_room "A"); ("s1", make_move "A" 0 "X")]).1 in
  rooms init !! "A" = None
  ∧ ∃ recipients b t,
      (handle "s2" (join_room "A") st).2 =
        [Unicast "s2" (player_assignment "O");
         Broadcast "A" recipients (game_ready b t)]
      ∧ b ≠ empty_board ∧ t ≠ "X".
Proof.
  split; [reflexivity|].
  eexists _, (Some "X" :: replicate 8 None), "O".
  split; [vm_compute; reflexivity|]. split; discriminate.
Qed.

(** C3.  A [join_room] for a room that already has two participants is
    answered with the single message [error "Room is full"], to the joiner
    only, and leaves the registry (every room's participants, board and
    turn) as it was. *)
Theorem third_join_rejected st socket code room :
  rooms st !! code = Some room →
  length (players room) = 2 →
  let result := handle socket (join_room code) st in
  result.2 = [Unicast socket (error "Room is full")]
  ∧ rooms result.1 = rooms st
  ∧ rooms result.1 !! code = Some room.
Proof.
  intros Hroom Hlen. cbn [handle]. cbv zeta.
  rewrite (on_join_room_full _ _ _ _ Hroom) by lia. done.
Qed.

Lemma third_join_rejected_witness :
  let st := (run init [("s1", join_room "A"); ("s2", join_room "A");
                       ("s1", make_move "A" 4 "X")]).1 in
  (handle "s3" (join_room "A") st).2 = [Unicast "s3" (error "Room is full")]
  ∧ rooms (handle "s3" (join_room "A") st).1 = rooms st
  ∧ rooms (handle "s3" (join_room "A") st).1 !! "A" =
      Some (mkRoom ["s1"; "s2"]
              [None; None; None; None; Some "X"; None; None; None; None] "O").
Proof.
  apply (third_join_rejected _ "s3" "A"); [vm_compute; reflexivity | reflexivity].
Defined.

(** ** The turn marker *)

Lemma handle_keeps_turn socket m st code room :
  rooms st !! code = Some room →
  m ≠ reset_game code →
  (∀ index symbol, m = make_move code index symbol →
                   ¬ move_allowed st code index symbol) →
  ∃ room', rooms (handle socket m st).1 !! code = Some room'
           ∧ turn room' = turn room ∧ board room' = board room.
Proof.
  intros Hroom Hnr Hnm. destruct m as [code'|code' index symbol|code'|]; simpl.
  - unfold on_join_room. destruct (rooms st !! code') as [room0|] eqn:Hroom0.
    + case_bool_decide; simpl; [|by exists room].
      destruct (decide (code' = code)) as [->|Hne].
      * rewrite lookup_insert_eq. eexists. split; [done|]. simpl.
        split; congruence.
      * rewrite lookup_insert_ne by done. by exists room.
    + simpl. rewrite lookup_insert_ne by congruence. by exists room.
  - destruct (decide (code' = code)) as [->|Hne].
    + rewrite on_make_move_refused by by apply Hnm. by exists room.
    + unfold on_make_move. destruct (rooms st !! code') as [room0|];
        [|by exists room].
      destruct (bool_decide _ && bool_decide _); [|by exists room].
      simpl. rewrite lookup_insert_ne by done. by exists room.
  - assert (code' ≠ code) as Hne by congruence.
    unfold on_reset_game. destruct (rooms st !! code') as [room0|];
      [|by exists room].
    simpl. rewrite lookup_insert_ne by done. by exists room.
  - by exists room.
Qed.

Lemma on_reset_game_known st code room :
  rooms st !! code = Some room →
  on_reset_game code st =
  (mkState (<[code := mkRoom (players room) empty_board "X"]> (rooms st))
           (groups st),
   [Broadcast code (members st code) (game_reset empty_board "X")]).
Proof. intros Hroom. unfold on_reset_game. by rewrite Hroom. Qed.

Lemma on_reset_game_unknown st code :
  rooms st !! code = None → on_reset_game code st = (st, []).
Proof. intros Hroom. unfold on_reset_game. by rewrite Hroom. Qed.

Lemma emits_move_made_allowed st socket code index symbol :
  emits_move_made (handle socket (make_move code index symbol) st).2 →
  move_allowed st code index symbol.
Proof.
  intros Hout. destruct (move_allowed_dec st code index symbol) as [|Hno]; [done|].
  simpl in Hout. rewrite (on_make_move_refused _ _ _ _ Hno) in Hout.
  destruct Hout as (c & r & b & t & Hin). by apply elem_of_nil in Hin.
Qed.

Lemma run_quiet_keeps_turn code st tr room :
  rooms st !! code = Some room →
  quiet code st tr →
  ∃ room', rooms (run st tr).1 !! code = Some room' ∧ turn room' = turn room.
Proof.
  revert st room. induction tr as [|[socket m] tr IH]; intros st room Hroom Hq.
  - by exists room.
  - destruct Hq as (Hnr & Hnm & Hq). rewrite run_cons. cbn [fst].
    destruct (handle_keeps_turn socket m st code room Hroom Hnr Hnm)
      as (room1 & Hroom1 & Ht1 & _).
    destruct (IH _ _ Hroom1 Hq) as (room2 & Hroom2 & Ht2).
    exists room2. split; [done | congruence].
Qed.

Lemma move_allowed_flips st socket code index symbol :
  state_ok st →
  move_allowed st code index symbol →
  emits_move_made (handle socket (make_move code index symbol) st).2
  ∧ ∃ room room',
      rooms st !! code = Some room
      ∧ rooms (handle socket (make_move code index symbol) st).1 !! code
        = Some room'
      ∧ turn room = symbol
      ∧ (turn room = "X" ∧ turn room' = "O"
         ∨ turn room = "O" ∧ turn room' = "X").
Proof.
  intros Hok (room & Hroom & Hcell & Hturn). cbn [handle].
  rewrite (on_make_move_allowed _ _ _ _ _ Hroom Hcell Hturn). cbn [fst snd].
  split.
  - do 4 eexists. apply list_elem_of_singleton. reflexivity.
  - exists room. eexists. split; [done|]. unfold moved. cbn [rooms].
    rewrite lookup_insert_eq. split; [done|]. split; [done|]. cbn [turn].
    destruct (Hok _ _ Hroom) as [_ [HX|HO]].
    + left. split; [done|]. by rewrite <- Hturn, HX.
    + right. split; [done|]. by rewrite <- Hturn, HO.
Qed.

(** C4.  In every reachable state each room's turn marker is X or O.  A
    move is accepted exactly when its guard holds, and an accepted move is
    broadcast and turns X into O and O into X.  The marker alternates
    strictly: of two accepted moves of a room with neither a reset nor
    another accepted move of that room between them, one carries X and the
    other O.  A [reset_game] for a known room puts back the empty board and
    X, and no other message touches a room's turn. *)
Theorem turn_marker_alternates st :
  reachable st →
  (∀ code room, rooms st !! code = Some room →
                turn room = "X" ∨ turn room = "O")
  ∧ (∀ socket code index symbol,
       move_allowed st code index symbol →
       emits_move_made (handle socket (make_move code index symbol) st).2
       ∧ ∃ room room',
           rooms st !! code = Some room
           ∧ rooms (handle socket (make_move code index symbol) st).1 !! code
             = Some room'
           ∧ turn room = symbol
           ∧ (turn room = "X" ∧ turn room' = "O"
              ∨ turn room = "O" ∧ turn room' = "X"))
  ∧ (∀ socket code index symbol,
       emits_move_made (handle socket (make_move code index symbol) st).2 →
       move_allowed st code index symbol)
  ∧ (∀ socket code index symbol s2 index2 symbol2 tr,
       move_allowed st code index symbol →
       quiet code (handle socket (make_move code index symbol) st).1 tr →
       move_allowed
         (run (handle socket (make_move code index symbol) st).1 tr).1
         code index2 symbol2 →
       emits_move_made
         (handle s2 (make_move code index2 symbol2)
            (run (handle socket (make_move code index symbol) st).1 tr).1).2
       ∧ (symbol = "X" ∧ symbol2 = "O" ∨ symbol = "O" ∧ symbol2 = "X"))
  ∧ (∀ socket code room,
       rooms st !! code = Some room →
       ∃ room',
         rooms (handle socket (reset_game code) st).1 !! code = Some room'
         ∧ turn room' = "X" ∧ board room' = empty_board)
  ∧ (∀ socket m code room,
       rooms st !! code = Some room →
       m ≠ reset_game code →
       (∀ index symbol, m = make_move code index symbol →
                        ¬ move_allowed st code index symbol) →
       ∃ room',
         rooms (handle socket m st).1 !! code = Some room'
         ∧ turn room' = turn room).
Proof.
  intros Hreach. pose proof (reachable_ok _ Hreach) as Hok.
  split; [|split; [|split; [|split; [|split]]]].
  - intros code room Hroom. by destruct (Hok _ _ Hroom).
  - intros socket code index symbol Hallowed. by apply move_allowed_flips.
  - intros socket code index symbol. apply emits_move_made_allowed.
  - intros socket code index symbol s2 index2 symbol2 tr Hallowed Hquiet Hnext.
    destruct (move_allowed_flips st socket code index symbol Hok Hallowed)
      as (_ & room & room1 & Hroom & Hroom1 & Hsym & Hflip).
    destruct (run_quiet_keeps_turn _ _ _ _ Hroom1 Hquiet)
      as (room2 & Hroom2 & Hturn2).
    assert (state_ok (run (handle socket (make_move code index symbol) st).1 tr).1)
      as Hok2 by by apply run_ok, handle_ok.
    split; [by apply move_allowed_flips|].
    destruct Hnext as (room3 & Hroom3 & _ & Hsym2).
    assert (room3 = room2) as -> by congruence.
    rewrite <- Hsym, <- Hsym2, Hturn2. exact Hflip.
  - intros socket code room Hroom. simpl.
    rewrite (on_reset_game_known _ _ _ Hroom). simpl.
    rewrite lookup_insert_eq. by eexists.
  - intros socket m code room Hroom Hnr Hnm.
    destruct (handle_keeps_turn socket m st code room Hroom Hnr Hnm)
      as (room' & Hroom' & Ht & _).
    by exists room'.
Qed.

Lemma turn_marker_alternates_witness :
  let st := (run init [("s1", join_room "A"); ("s2", join_room "A")]).1 in
  let st1 := (handle "s1" (make_move "A" 0 "X") st).1 in
  let tr := [("s1", make_move "A" 1 "X"); ("s2", make_move "A" 0 "O");
             ("s3", join_room "A")] in
  (emits_move_made (handle "s1" (make_move "A" 0 "X") st).2
   ∧ ∃ room room',
       rooms st !! "A" = Some room ∧ rooms st1 !! "A" = Some room'
       ∧ turn room = "X"
       ∧ (turn room = "X" ∧ turn room' = "O" ∨ turn room = "O" ∧ turn room' = "X"))
  ∧ (emits_move_made (handle "s2" (make_move "A" 4 "O") (run st1 tr).1).2
     ∧ ("X" = "X" ∧ "O" = "O" ∨ "X" = "O" ∧ "O" = "X")).
Proof.
  cbv zeta.
  pose proof (turn_marker_alternates _
                (reachable_run [("s1", join_room "A"); ("s2", join_room "A")]))
    as (_ & Hflip & _ & Halt & _).
  assert (move_allowed (run init [("s1", join_room "A"); ("s2", join_room "A")]).1
            "A" 0 "X") as Hfirst.
  { eexists. split; [vm_compute; reflexivity|]. split; reflexivity. }
  split; [exact (Hflip "s1" "A" 0%Z "X" Hfirst)|].
  apply (Halt "s1" "A" 0%Z "X" "s2" 4%Z "O" _ Hfirst).
  - repeat split; try discriminate.
    + intros index symbol [= <- <-] (room & Hroom & _ & Hturn).
      vm_compute in Hroom. injection Hroom as <-. discriminate Hturn.
    + intros index symbol [= <- <-] (room & Hroom & Hcell & _).
      vm_compute in Hroom. injection Hroom as <-. discriminate Hcell.
  - eexists. split; [vm_compute; reflexivity|]. split; reflexivity.
Defined.

(** ** Moves and resets before the second participant *)

(** C8 as stated fails: with a single participant in the room a move is
    taken and broadcast, and a reset takes effect. *)
Lemma move_taken_before_ready :
  let st := (run init [("s1", join_room "A")]).1 in
  let st' := (handle "s1" (make_move "A" 0 "X") st).1 in
  rooms st !! "A" = Some (mkRoom ["s1"] empty_board "X")
  ∧ length ["s1"] < 2
  ∧ emits_move_made (handle "s1" (make_move "A" 0 "X") st).2
  ∧ rooms st' !! "A" = Some (mkRoom ["s1"] (Some "X" :: replicate 8 None) "O")
  ∧ rooms (handle "s1" (reset_game "A") st').1 !! "A"
      = Some (mkRoom ["s1"] empty_board "X")
  ∧ ∃ recipients,
      (handle "s1" (reset_game "A") st').2
        = [Broadcast "A" recipients (game_reset empty_board "X")].
Proof.
  cbv zeta. split; [vm_compute; reflexivity|]. split; [simpl; lia|].
  split; [|split; [vm_compute; reflexivity|split; [vm_compute; reflexivity|]]].
  - simpl handle.
    erewrite on_make_move_allowed; [|vm_compute; reflexivity|reflexivity..].
    do 4 eexists. apply list_elem_of_singleton. reflexivity.
  - eexists. vm_compute. reflexivity.
Qed.

(** C8 (as the code has it).  Moves and resets wait for the room to exist,
    not for its second participant.  For an unknown room code a [make_move]
    and a [reset_game] change nothing and send nothing.  In a room with
    fewer than two participants a [make_move] is taken exactly when the
    cell holds [null] and the turn is the claimed symbol, and a
    [reset_game] puts back the empty board and X and broadcasts them. *)
Theorem move_and_reset_wait_for_room_only st socket code :
  (rooms st !! code = None →
   ∀ index symbol,
     handle socket (make_move code index symbol) st = (st, [])
     ∧ handle socket (reset_game code) st = (st, []))
  ∧ (∀ room,
       rooms st !! code = Some room →
       length (players room) < 2 →
       (∀ index symbol,
          emits_move_made (handle socket (make_move code index symbol) st).2
          ↔ array_get (board room) index = Some None ∧ turn room = symbol)
       ∧ handle socket (reset_game code) st =
           (mkState (<[code := mkRoom (players room) empty_board "X"]> (rooms st))
                    (groups st),
            [Broadcast code (members st code) (game_reset empty_board "X")])).
Proof.
  split.
  - intros Hnone index symbol. simpl. split.
    + apply on_make_move_refused. intros (room & Hroom & _). congruence.
    + by apply on_reset_game_unknown.
  - intros room Hroom _. split.
    + intros index symbol. split.
      * intros (room0 & Hroom0 & Hcell & Hturn)%emits_move_made_allowed.
        assert (room0 = room) as -> by congruence. done.
      * intros [Hcell Hturn]. simpl.
        rewrite (on_make_move_allowed _ _ _ _ _ Hroom Hcell Hturn).
        do 4 eexists. apply list_elem_of_singleton. reflexivity.
    + simpl. by apply on_reset_game_known.
Qed.

(** ** The rejected joiner *)

(** C9.  A connection whose [join_room] was answered with "Room is full" is
    not made a participant, yet it has been put in the room's broadcast
    group before the capacity check: as long as it stays connected, every
    broadcast for that room ([game_ready], [move_made], [game_reset]) has it
    among its recipients. *)
Theorem rejected_joiner_still_subscribed st socket code tr :
  (handle socket (join_room code) st).2 = [Unicast socket (error "Room is full")] →
  (socket, disconnect) ∉ tr →
  let st1 := (handle socket (join_room code) st).1 in
  rooms st1 = rooms st
  ∧ socket ∈ members st1 code
  ∧ ∀ recipients m,
      Broadcast code recipients m ∈ (run st1 tr).2 → socket ∈ recipients.
Proof.
  intros Herr Hnd. cbn [handle] in *. cbv zeta.
  split; [by apply on_join_room_error|].
  split; [apply on_join_room_subscribes|].
  intros recipients m Hin.
  eapply run_broadcast_member; [apply on_join_room_subscribes | done..].
Qed.

Lemma rejected_joiner_still_subscribed_witness :
  let st := (run init [("s1", join_room "A"); ("s2", join_room "A")]).1 in
  let st1 := (handle "s3" (join_room "A") st).1 in
  let tr := [("s1", make_move "A" 0 "X"); ("s2", reset_game "A")] in
  (handle "s3" (join_room "A") st).2 = [Unicast "s3" (error "Room is full")]
  ∧ (∃ room, rooms st1 !! "A" = Some room ∧ players room = ["s1"; "s2"])
  ∧ (∃ r1 r2, (run st1 tr).2 =
       [Broadcast "A" r1 (move_made (Some "X" :: replicate 8 None) "O");
        Broadcast "A" r2 (game_reset empty_board "X")]
       ∧ "s3" ∈ r1 ∧ "s3" ∈ r2).
Proof.
  cbv zeta. split; [vm_compute; reflexivity|].
  split; [eexists; split; vm_compute; reflexivity|].
  eexists _, _. split; [vm_compute; reflexivity|].
  assert (("s3", disconnect) ∉ [("s1", make_move "A" 0 "X"); ("s2", reset_game "A")])
    as Hnd.
  { intros [Hin|Hin%list_elem_of_singleton]%elem_of_cons; discriminate Hin. }
  assert ((handle "s3" (join_room "A")
             (run init [("s1", join_room "A"); ("s2", join_room "A")]).1).2
          = [Unicast "s3" (error "Room is full")]) as Herr.
  { vm_compute. reflexivity. }
  destruct (rejected_joiner_still_subscribed _ "s3" "A" _ Herr Hnd)
    as (_ & _ & Hall).
  split; eapply Hall.
  - vm_compute. left.
  - vm_compute. right. left.
Defined.

(** ** Indices off the board *)

(** C10.  In every reachable state a [make_move] whose index is below 0 or
    above 8 is refused: the lookup finds no [null] there, so the state is
    unchanged and nothing is broadcast. *)
Theorem out_of_range_move_rejected st socket code index symbol :
  reachable st →
  (index < 0 ∨ 8 < index)%Z →
  array_get_refuses st code index
  ∧ handle socket (make_move code index symbol) st = (st, []).
Proof.
  intros Hreach Hout.
  assert (array_get_refuses st code index) as Hno.
  { intros room Hroom. apply array_get_outside.
    destruct (reachable_ok _ Hreach _ _ Hroom) as [Hlen _]. lia. }
  split; [done|]. simpl. apply on_make_move_refused.
  intros (room & Hroom & Hcell & _). rewrite (Hno _ Hroom) in Hcell. done.
Qed.

Lemma out_of_range_move_rejected_witness :
  let st := (run init [("s1", join_room "A"); ("s2", join_room "A")]).1 in
  handle "s1" (make_move "A" 9 "X") st = (st, [])
  ∧ handle "s1" (make_move "A" (-1) "X") st = (st, []).
Proof.
  cbv zeta. split.
  - refine (proj2 (out_of_range_move_rejected _ "s1" "A" 9 "X"
                     (reachable_run [("s1", join_room "A"); ("s2", join_room "A")]) _)).
    lia.
  - refine (proj2 (out_of_range_move_rejected _ "s1" "A" (-1) "X"
                     (reachable_run [("s1", join_room "A"); ("s2", join_room "A")]) _)).
    lia.
Defined.

End ServerSpec.

(* ===================================================================== *)
(** * Properties of the board engine                                      *)
(* ===================================================================== *)

Module EngineSpec.
Import Engine.

(** ** [checkWinner] *)

Lemma line_of_unique squares combo p q :
  line_of squares combo p → line_of squares combo q → p = q.
Proof. intros [Hp _] [Hq _]. congruence. Qed.

(** One turn of the scanning loop. *)
Lemma scan_cons_line squares combo rest p :
  line_of squares combo p →
  scan squares (combo :: rest) = Some (mkResult (Won p) (Some combo)).
Proof.
  destruct combo as [[a b] c]. intros (Ha & Hb & Hc).
  cbn [fst snd] in *. cbn [scan].
  rewrite Ha, Hb, Hc. by rewrite !bool_decide_eq_true_2.
Qed.

Lemma scan_cons_no_line squares combo rest :
  no_line squares combo →
  scan squares (combo :: rest) = scan squares rest.
Proof.
  destruct combo as [[a b] c]. intros Hno. cbn [scan].
  destruct (squares !! a) as [[p|]|] eqn:Ha; [|done..].
  destruct (bool_decide (Some (Some p) = squares !! b)
            && bool_decide (Some (Some p) = squares !! c)) eqn:Hbc; [|done].
  apply andb_prop in Hbc as [Hb%bool_decide_eq_true_1 Hc%bool_decide_eq_true_1].
  destruct (Hno p). by repeat split.
Qed.

Lemma line_dec squares combo :
  (∃ p, line_of squares combo p) ∨ no_line squares combo.
Proof.
  destruct combo as [[a b] c]. unfold no_line, line_of. cbn [fst snd].
  destruct (squares !! a) as [[p|]|] eqn:Ha.
  - destruct (decide (squares !! b = Some (Some p))) as [Hb|Hb];
      [destruct (decide (squares !! c = Some (Some p))) as [Hc|Hc]|].
    + left. by exists p.
    + right. intros q (Hq & _ & Hc'). congruence.
    + right. intros q (Hq & Hb' & _). congruence.
  - right. intros q (Hq & _). congruence.
  - right. intros q (Hq & _). congruence.
Qed.

(** The loop leaves at the first combination that is a line, and only
    there. *)
Lemma scan_Some squares combos r :
  scan squares combos = Some r ↔
  ∃ pre combo post p,
    combos = pre ++ combo :: post
    ∧ Forall (no_line squares) pre
    ∧ line_of squares combo p
    ∧ r = mkResult (Won p) (Some combo).
Proof.
  induction combos as [|combo rest IH].
  - split; [done|]. intros (pre & combo & post & p & Heq & _).
    by destruct pre.
  - destruct (line_dec squares combo) as [[p Hline]|Hno].
    + rewrite (scan_cons_line _ _ _ _ Hline). split.
      * intros [= <-]. by exists [], combo, rest, p.
      * intros (pre & combo' & post & q & Heq & Hpre & Hline' & ->).
        destruct pre as [|c0 pre]; simpl in Heq.
        -- injection Heq as <- _. by rewrite (line_of_unique _ _ _ _ Hline Hline').
        -- injection Heq as <- _. apply Forall_cons in Hpre as [Hno _].
           by destruct (Hno p).
    + rewrite (scan_cons_no_line _ _ _ Hno), IH. split.
      * intros (pre & combo' & post & q & -> & Hpre & Hline' & ->).
        exists (combo :: pre), combo', post, q. split; [done|].
        split; [by apply Forall_cons|done].
      * intros (pre & combo' & post & q & Heq & Hpre & Hline' & ->).
        destruct pre as [|c0 pre]; simpl in Heq.
        -- injection Heq as -> _. by destruct (Hno q).
        -- injection Heq as -> ->. apply Forall_cons in Hpre as [_ Hpre].
           by exists pre, combo', post, q.
Qed.

Lemma scan_None squares combos :
  scan squares combos = None ↔ Forall (no_line squares) combos.
Proof.
  induction combos as [|combo rest IH]; [done|].
  destruct (line_dec squares combo) as [[p Hline]|Hno].
  - rewrite (scan_cons_line _ _ _ _ Hline). split; [done|].
    intros [Hno _]%Forall_cons. by destruct (Hno p).
  - rewrite (scan_cons_no_line _ _ _ Hno), IH. split.
    + intros Hrest. by apply Forall_cons.
    + by intros [_ Hrest]%Forall_cons.
Qed.

(** [squares.every(s => s !== null)] *)
Lemma every_Forall (squares : list Player) :
  forallb (λ s : Player, bool_decide (s ≠ None)) squares = true ↔
  Forall (λ s : Player, s ≠ None) squares.
Proof.
  induction squares as [|s squares IH]; simpl.
  - split; [constructor | done].
  - rewrite andb_true_iff, IH, Forall_cons, bool_decide_eq_true. done.
Qed.

Lemma every_filled (squares : list Player) :
  length squares = 9 →
  forallb (λ s : Player, bool_decide (s ≠ None)) squares = true ↔ filled squares.
Proof.
  intros Hlen. rewrite every_Forall, Forall_lookup. split.
  - intros Hall i Hi.
    destruct (lookup_lt_is_Some_2 squares i) as [s Hs]; [lia|].
    pose proof (Hall i s Hs) as Hne.
    destruct s as [p|]; [by exists p | done].
  - intros Hfill i s Hs.
    destruct (Hfill i) as [p Hp]; [apply lookup_lt_Some in Hs; lia|].
    congruence.
Qed.

(** C5.  On a 9-cell board [checkWinner] answers with a winner exactly when
    one of the eight fixed triples (three rows, three columns, two
    diagonals) holds three equal marks, and then with the mark and the
    indices of the first such triple in the table; it answers Draw exactly
    when no triple does and all nine cells are marked; and it answers
    nothing in the remaining case. *)
Theorem checkWinner_spec squares :
  length squares = 9 →
  WINNING_COMBINATIONS =
    [ (0, 1, 2); (3, 4, 5); (6, 7, 8) ]
    ++ [ (0, 3, 6); (1, 4, 7); (2, 5, 8) ]
    ++ [ (0, 4, 8); (2, 4, 6) ]
  ∧ (∀ p l,
       checkWinner squares = Some (mkResult (Won p) l) ↔
       ∃ pre combo post,
         WINNING_COMBINATIONS = pre ++ combo :: post
         ∧ Forall (no_line squares) pre
         ∧ line_of squares combo p
         ∧ l = Some combo)
  ∧ (∀ l,
       checkWinner squares = Some (mkResult Draw l) ↔
       Forall (no_line squares) WINNING_COMBINATIONS
       ∧ filled squares ∧ l = None)
  ∧ (checkWinner squares = None ↔
     Forall (no_line squares) WINNING_COMBINATIONS ∧ ¬ filled squares).
Proof.
  intros Hlen. split; [reflexivity|].
  unfold checkWinner.
  destruct (scan squares WINNING_COMBINATIONS) as [r|] eqn:Hscan.
  - pose proof Hscan as Hfirst.
    apply scan_Some in Hfirst as (pre & combo & post & p & Heq & Hpre & Hline & ->).
    assert (¬ Forall (no_line squares) WINNING_COMBINATIONS) as Hsome.
    { intros Hnone%scan_None. congruence. }
    split; [|split].
    + intros q l. split.
      * intros [= <- <-]. by exists pre, combo, post.
      * intros (pre' & combo' & post' & Heq' & Hpre' & Hline' & ->).
        assert (scan squares WINNING_COMBINATIONS
                = Some (mkResult (Won q) (Some combo'))) as Hscan'.
        { apply scan_Some. by exists pre', combo', post', q. }
        congruence.
    + intros l. split; [done|]. by intros [Hnone _].
    + split; [done|]. by intros [Hnone _].
  - apply scan_None in Hscan as Hnone.
    pose proof (every_filled squares Hlen) as Hevery.
    destruct (forallb _ squares).
    + assert (filled squares) as Hfill by by apply Hevery.
      split; [|split].
      * intros q l. split; [done|].
        intros (pre & combo & post & Heq & Hpre & Hline & ->).
        rewrite Heq in Hnone. apply Forall_app in Hnone as [_ Hnone].
        apply Forall_cons in Hnone as [Hno _]. by destruct (Hno q).
      * intros l. split; [by intros [= <-] | by intros (_ & _ & ->)].
      * split; [done|]. by intros [_ Hnot].
    + assert (¬ filled squares) as Hnot.
      { intros Hfill%Hevery. done. }
      split; [|split].
      * intros q l. split; [done|].
        intros (pre & combo & post & Heq & Hpre & Hline & ->).
        rewrite Heq in Hnone. apply Forall_app in Hnone as [_ Hnone].
        apply Forall_cons in Hnone as [Hno _]. by destruct (Hno q).
      * intros l. split; [done|]. by intros (_ & Hfill & _).
      * done.
Qed.

(** The winning-line test of the specification: X at 0, 1, 2 and O at 3, 4. *)
Lemma checkWinner_spec_witness :
  checkWinner [Some X; Some X; Some X; Some O; Some O; None; None; None; None]
  = Some (mkResult (Won X) (Some (0, 1, 2))).
Proof.
  apply (checkWinner_spec
           [Some X; Some X; Some X; Some O; Some O; None; None; None; None]
           eq_refl).
  exists [], (0, 1, 2), [(3, 4, 5); (6, 7, 8); (0, 3, 6); (1, 4, 7); (2, 5, 8);
                         (0, 4, 8); (2, 4, 6)].
  split; [reflexivity|]. split; [constructor|]. split; [|reflexivity].
  repeat split.
Defined.

(** ** The search always answers *)

Lemma minimax_unfold fuel squares depth isMaximizing aiSymbol :
  minimax (S fuel) squares depth isMaximizing aiSymbol =
  if winner_is (checkWinner squares) (Won aiSymbol)
  then Some (Fin (10 - depth), squares)
  else if winner_is (checkWinner squares) (Won (opponent aiSymbol))
  then Some (Fin (depth - 10), squares)
  else if winner_is (checkWinner squares) Draw then Some (Fin 0, squares)
  else if isMaximizing then
    fold_left
      (score_step score_max aiSymbol
         (λ sq, minimax fuel sq (depth + 1) false aiSymbol))
      (seq 0 9) (Some (NegInf, squares))
  else
    fold_left
      (score_step score_min (opponent aiSymbol)
         (λ sq, minimax fuel sq (depth + 1) true aiSymbol))
      (seq 0 9) (Some (PosInf, squares)).
Proof. reflexivity. Qed.

(** The three tests on [result?.winner] cover every answer of
    [checkWinner]. *)
Lemma winner_is_none result aiSymbol :
  winner_is result (Won aiSymbol) = false →
  winner_is result (Won (opponent aiSymbol)) = false →
  winner_is result Draw = false →
  result = None.
Proof.
  destruct result as [r|]; [|done]. unfold winner_is.
  intros Hai%bool_decide_eq_false_1 Hopp%bool_decide_eq_false_1
         Hdraw%bool_decide_eq_false_1.
  destruct (winner r) as [[]|], aiSymbol; simpl in *; done.
Qed.

Lemma every_false (squares : list Player) :
  forallb (λ s : Player, bool_decide (s ≠ None)) squares = false →
  ∃ i, squares !! i = Some None.
Proof.
  induction squares as [|s squares IH]; simpl; [done|].
  destruct s as [p|].
  - simpl. intros [i Hi]%IH. by exists (S i).
  - intros _. by exists 0.
Qed.

Lemma checkWinner_None_empty (squares : list Player) :
  checkWinner squares = None → ∃ i, squares !! i = Some None.
Proof.
  unfold checkWinner. destruct (scan squares WINNING_COMBINATIONS); [done|].
  destruct (forallb _ squares) eqn:Hall; [done|].
  intros _. by apply every_false.
Qed.

Lemma truthy_false (squares : list Player) i :
  i < length squares → truthy (squares !! i) = false → squares !! i = Some None.
Proof.
  intros Hi. destruct (lookup_lt_is_Some_2 squares i Hi) as [[p|] Hs];
    rewrite Hs; done.
Qed.

Lemma empties_le (squares : list Player) : empties squares ≤ length squares.
Proof. apply length_filter. Qed.

Lemma empties_insert (squares : list Player) i p :
  squares !! i = Some None →
  S (empties (<[i := Some p]> squares)) = empties squares.
Proof.
  unfold empties. revert i.
  induction squares as [|s squares IH]; intros [|i] Hs; simpl in *; try done.
  - injection Hs as ->.
    rewrite filter_cons_False by done. by rewrite filter_cons_True.
  - destruct s as [q|].
    + rewrite !(filter_cons_False _ (Some q)) by done. by apply IH.
    + rewrite !(filter_cons_True _ None) by done. simpl. f_equal. by apply IH.
Qed.

(** Writing a mark into an empty cell and [null] back gives the array
    back. *)
Lemma write_back (squares : list Player) i p :
  squares !! i = Some None →
  <[i := None]> (<[i := Some p]> squares) = squares.
Proof. intros Hc. rewrite list_insert_insert_eq. by apply list_insert_id. Qed.

Lemma score_step_skip pick mark search b (squares : list Player) i :
  truthy (squares !! i) = true →
  score_step pick mark search (Some (b, squares)) i = Some (b, squares).
Proof. intros Hc. unfold score_step. cbn [mbind option_bind]. by rewrite Hc. Qed.

Lemma score_step_try pick mark search b (squares : list Player) i score :
  squares !! i = Some None →
  search (<[i := Some mark]> squares) = Some (score, <[i := Some mark]> squares) →
  score_step pick mark search (Some (b, squares)) i
  = Some (pick score b, squares).
Proof.
  intros Hc Hsearch. unfold score_step. cbn [mbind option_bind].
  rewrite Hc, Hsearch. cbn [mbind option_bind truthy].
  by rewrite write_back.
Qed.

(** The loop of [minimax]: when every recursive call answers with a finite
    score and the array it was given, the loop gives the array back, and
    with a finite score as soon as one cell is empty. *)
Lemma fold_score_step (squares : list Player) pick mark search
    (P : Score → Prop) l b :
  (∀ z b, P b → ∃ z', pick (Fin z) b = Fin z') →
  (∀ z, P (Fin z)) →
  (∀ i, i ∈ l → squares !! i = Some None →
        ∃ z, search (<[i := Some mark]> squares)
             = Some (Fin z, <[i := Some mark]> squares)) →
  (∀ i, i ∈ l → i < length squares) →
  P b →
  ∃ b', fold_left (score_step pick mark search) l (Some (b, squares))
        = Some (b', squares)
        ∧ P b'
        ∧ ((∃ z, b = Fin z) ∨ (∃ i, i ∈ l ∧ squares !! i = Some None) →
           ∃ z, b' = Fin z).
Proof.
  intros Hpick Hfin. revert b.
  induction l as [|i l IH]; intros b Hsearch Hl Hb; cbn [fold_left].
  - exists b. split; [done|]. split; [done|].
    intros [Hz|(i & Hi & _)]; [done | by apply elem_of_nil in Hi].
  - assert (∀ j, j ∈ l → j < length squares) as Hl'
        by (intros j Hj; apply Hl; by right).
    destruct (truthy (squares !! i)) eqn:Hcell.
    + rewrite (score_step_skip _ _ _ _ _ _ Hcell).
      destruct (IH b) as (b' & Hfold & Hb' & Hz); [|done..|].
      { intros j Hj. apply Hsearch. by right. }
      exists b'. split; [done|]. split; [done|].
      intros [Hbz|(j & Hj & Hjc)]; [by apply Hz; left|].
      apply elem_of_cons in Hj as [->|Hj]; [by rewrite Hjc in Hcell|].
      apply Hz. right. by exists j.
    + apply truthy_false in Hcell; [|apply Hl; by left].
      destruct (Hsearch i) as [z Hz]; [by left | done |].
      rewrite (score_step_try _ _ _ _ _ _ _ Hcell Hz).
      destruct (Hpick z b Hb) as [z' Hz'].
      destruct (IH (pick (Fin z) b)) as (b' & Hfold & Hb' & Hfinite); [|done|..].
      { intros j Hj. apply Hsearch. by right. }
      { rewrite Hz'. apply Hfin. }
      exists b'. split; [done|]. split; [done|].
      intros _. apply Hfinite. left. by exists z'.
Qed.

Lemma score_max_fin z b : b ≠ PosInf → ∃ z', score_max (Fin z) b = Fin z'.
Proof.
  intros Hb. destruct b as [|y|]; [by exists z | | done].
  unfold score_max, score_gt. case_bool_decide; eauto.
Qed.

Lemma score_min_fin z b : b ≠ NegInf → ∃ z', score_min (Fin z) b = Fin z'.
Proof.
  intros Hb. destruct b as [|y|]; [done | | by exists z].
  unfold score_min, score_gt. case_bool_decide; eauto.
Qed.

(** With more fuel than empty cells, [minimax] answers on every 9-cell
    board, with a finite score, and gives the array back as it was. *)
Lemma minimax_total fuel :
  ∀ (squares : list Player) depth isMaximizing aiSymbol,
    length squares = 9 →
    empties squares < fuel →
    ∃ z, minimax fuel squares depth isMaximizing aiSymbol
         = Some (Fin z, squares).
Proof.
  induction fuel as [|fuel IH]; intros squares depth isMaximizing aiSymbol Hlen Hfuel;
    [lia|].
  rewrite minimax_unfold.
  destruct (winner_is _ (Won aiSymbol)) eqn:Hai; [eauto|].
  destruct (winner_is _ (Won (opponent aiSymbol))) eqn:Hopp; [eauto|].
  destruct (winner_is _ Draw) eqn:Hdraw; [eauto|].
  pose proof (winner_is_none _ _ Hai Hopp Hdraw) as Hnone.
  destruct (checkWinner_None_empty _ Hnone) as [i0 Hi0].
  assert (i0 ∈ seq 0 9) as Hin0.
  { apply elem_of_seq. apply lookup_lt_Some in Hi0. lia. }
  assert (∀ i, i ∈ seq 0 9 → i < length squares) as Hrange.
  { intros i Hi%elem_of_seq. lia. }
  assert (∀ p i, squares !! i = Some None →
                 length (<[i := Some p]> squares) = 9
                 ∧ empties (<[i := Some p]> squares) < fuel) as Hnext.
  { intros p i Hc. split; [by rewrite length_insert|].
    pose proof (empties_insert squares i p Hc). lia. }
  destruct isMaximizing.
  - destruct (fold_score_step squares score_max aiSymbol
                (λ sq, minimax fuel sq (depth + 1) false aiSymbol)
                (λ b, b ≠ PosInf) (seq 0 9) NegInf)
      as (b' & Hfold & _ & Hfin);
      [apply score_max_fin | done | | done | done |].
    + intros i _ Hc. destruct (Hnext aiSymbol i Hc). by apply IH.
    + destruct Hfin as [z Hz]; [right; by exists i0|].
      exists z. by rewrite Hfold, Hz.
  - destruct (fold_score_step squares score_min (opponent aiSymbol)
                (λ sq, minimax fuel sq (depth + 1) true aiSymbol)
                (λ b, b ≠ NegInf) (seq 0 9) PosInf)
      as (b' & Hfold & _ & Hfin);
      [apply score_min_fin | done | | done | done |].
    + intros i _ Hc. destruct (Hnext (opponent aiSymbol) i Hc). by apply IH.
    + destruct Hfin as [z Hz]; [right; by exists i0|].
      exists z. by rewrite Hfold, Hz.
Qed.

(** ** [getBestMove] *)

#[local] Arguments minimax : simpl never.

Lemma best_step_skip (squares : list Player) aiSymbol best i :
  truthy (squares !! i) = true →
  best_step aiSymbol (Some (best, squares)) i = Some (best, squares).
Proof.
  intros Hc. destruct best. unfold best_step. cbn [mbind option_bind].
  by rewrite Hc.
Qed.

Lemma best_step_try (squares : list Player) aiSymbol bestScore move i z :
  squares !! i = Some None →
  minimax search_fuel (<[i := Some aiSymbol]> squares) 0 false aiSymbol
    = Some (Fin z, <[i := Some aiSymbol]> squares) →
  best_step aiSymbol (Some (bestScore, move, squares)) i =
  Some (if score_gt (Fin z) bestScore then (Fin z, Z.of_nat i)
        else (bestScore, move), squares).
Proof.
  intros Hc Hscore. unfold best_step. cbn [mbind option_bind].
  rewrite Hc, Hscore. cbn [mbind option_bind truthy]. rewrite write_back by done.
  by destruct (score_gt (Fin z) bestScore).
Qed.

(** The first trial on an empty cell answers on a 9-cell board. *)
Lemma first_trial_total (squares : list Player) aiSymbol i :
  length squares = 9 →
  squares !! i = Some None →
  ∃ z, minimax search_fuel (<[i := Some aiSymbol]> squares) 0 false aiSymbol
       = Some (Fin z, <[i := Some aiSymbol]> squares).
Proof.
  intros Hlen Hc. apply minimax_total; [by rewrite length_insert|].
  pose proof (empties_insert squares i aiSymbol Hc).
  pose proof (empties_le squares). unfold search_fuel. lia.
Qed.

(** Trying an empty cell leaves a finite score and an empty cell's index in
    [(bestScore, move)], whatever was held before. *)
Lemma best_step_holds (squares : list Player) aiSymbol best i :
  length squares = 9 →
  best_ok squares best →
  squares !! i = Some None →
  ∃ best', best_step aiSymbol (Some (best, squares)) i = Some (best', squares)
           ∧ holds_move squares best'.
Proof.
  intros Hlen Hok Hc.
  destruct (first_trial_total squares aiSymbol i Hlen Hc) as [z Hz].
  destruct best as [bestScore move].
  rewrite (best_step_try _ _ _ _ _ _ Hc Hz).
  eexists. split; [done|].
  destruct (score_gt (Fin z) bestScore) eqn:Hgt.
  - split; [by exists z|]. simpl. split; [lia|]. by rewrite Nat2Z.id.
  - destruct Hok as [[= -> ->]|Hok]; [done | exact Hok].
Qed.

Lemma fold_best_step_holds (squares : list Player) aiSymbol l best :
  length squares = 9 →
  (∀ i, i ∈ l → i < 9) →
  holds_move squares best →
  ∃ best', fold_left (best_step aiSymbol) l (Some (best, squares))
           = Some (best', squares)
           ∧ holds_move squares best'.
Proof.
  intros Hlen. revert best.
  induction l as [|i l IH]; intros best Hl Hok; cbn [fold_left]; [by exists best|].
  assert (∀ j, j ∈ l → j < 9) as Hl' by (intros j Hj; apply Hl; by right).
  destruct (truthy (squares !! i)) eqn:Hc.
  - rewrite (best_step_skip _ _ _ _ Hc). by apply IH.
  - apply truthy_false in Hc; [|rewrite Hlen; apply Hl; by left].
    destruct (best_step_holds squares aiSymbol best i Hlen) as (best1 & -> & Hok1);
      [by right | done |].
    by apply IH.
Qed.

Lemma fold_best_step (squares : list Player) aiSymbol l best :
  length squares = 9 →
  (∀ i, i ∈ l → i < 9) →
  best_ok squares best →
  ∃ best', fold_left (best_step aiSymbol) l (Some (best, squares))
           = Some (best', squares)
           ∧ best_ok squares best'
           ∧ ((∃ i, i ∈ l ∧ squares !! i = Some None) →
              holds_move squares best').
Proof.
  intros Hlen. revert best.
  induction l as [|i l IH]; intros best Hl Hok; cbn [fold_left].
  - exists best. split; [done|]. split; [done|].
    intros (i & Hi & _). by apply elem_of_nil in Hi.
  - assert (∀ j, j ∈ l → j < 9) as Hl' by (intros j Hj; apply Hl; by right).
    destruct (truthy (squares !! i)) eqn:Hc.
    + rewrite (best_step_skip _ _ _ _ Hc).
      destruct (IH best Hl' Hok) as (best' & Hfold & Hok' & Hsome).
      exists best'. split; [done|]. split; [done|].
      intros (j & Hj & Hjc). apply Hsome.
      apply elem_of_cons in Hj as [->|Hj]; [by rewrite Hjc in Hc | by exists j].
    + apply truthy_false in Hc; [|rewrite Hlen; apply Hl; by left].
      destruct (best_step_holds squares aiSymbol best i Hlen Hok Hc)
        as (best1 & -> & Hok1).
      destruct (fold_best_step_holds squares aiSymbol l best1 Hlen Hl' Hok1)
        as (best' & Hfold & Hok').
      exists best'. split; [done|]. split; [by right | done].
Qed.

(** C7.  On every 9-cell board [getBestMove] answers and leaves the board
    as it found it; its answer is [-1] or the index of an empty cell, never
    the index of a marked cell; and when the board has an empty cell the
    answer is the index of an empty cell. *)
Theorem getBestMove_empty_cell (squares : list Player) aiSymbol :
  length squares = 9 →
  ∃ move,
    getBestMove squares aiSymbol = Some (move, squares)
    ∧ (move = (-1)%Z
       ∨ (0 ≤ move < 9)%Z ∧ squares !! Z.to_nat move = Some None)
    ∧ (∀ p, squares !! Z.to_nat move = Some (Some p) → move = (-1)%Z)
    ∧ ((∃ i, squares !! i = Some None) →
       (0 ≤ move < 9)%Z ∧ squares !! Z.to_nat move = Some None).
Proof.
  intros Hlen. unfold getBestMove.
  destruct (fold_best_step squares aiSymbol (seq 0 9) (NegInf, (-1)%Z) Hlen)
    as ([bestScore move] & -> & Hok & Hsome).
  { intros i Hi%elem_of_seq. lia. }
  { by left. }
  assert (∀ m : Z, (0 ≤ m)%Z → squares !! Z.to_nat m = Some None → (m < 9)%Z)
    as Hlt.
  { intros m Hm Hc%lookup_lt_Some. lia. }
  exists move. cbn [mbind option_bind]. split; [done|]. split; [|split].
  - destruct Hok as [[= -> ->]|(_ & Hm & Hc)]; [by left|].
    right. simpl in *. split; [|done]. split; [done | by apply Hlt].
  - intros p Hp. destruct Hok as [[= -> ->]|(_ & Hm & Hc)]; [done|].
    simpl in *. congruence.
  - intros (i & Hi). destruct Hsome as (_ & Hm & Hc).
    { exists i. split; [|done]. apply elem_of_seq.
      apply lookup_lt_Some in Hi. lia. }
    simpl in *. split; [|done]. split; [done | by apply Hlt].
Qed.

Lemma getBestMove_empty_cell_witness :
  ∃ move,
    getBestMove [Some X; Some O; Some X; Some O; Some O; Some X; None; None; None] X
      = Some (move,
              [Some X; Some O; Some X; Some O; Some O; Some X; None; None; None])
    ∧ (0 ≤ move < 9)%Z
    ∧ [Some X; Some O; Some X; Some O; Some O; Some X; None; None; None]
        !! Z.to_nat move = Some None.
Proof.
  destruct (getBestMove_empty_cell
              [Some X; Some O; Some X; Some O; Some O; Some X; None; None; None]
              X eq_refl) as (move & Hmove & _ & _ & Hempty).
  exists move. split; [exact Hmove|]. apply Hempty. by exists 6.
Defined.

(** On an open 9-cell board the computer always has a move. *)
Lemma aiTurn_total (board : list Player) aiSymbol :
  length board = 9 →
  checkWinner board = None →
  ∃ move, (0 ≤ move < 9)%Z ∧ board !! Z.to_nat move = Some None
          ∧ aiTurn board aiSymbol = Some (<[Z.to_nat move := Some aiSymbol]> board).
Proof.
  intros Hlen Hopen.
  destruct (fold_best_step board aiSymbol (seq 0 9) (NegInf, (-1)%Z) Hlen)
    as ([bestScore move] & Hfold & _ & Hsome).
  { intros i Hi%elem_of_seq. lia. }
  { by left. }
  destruct (checkWinner_None_empty _ Hopen) as [i Hi].
  destruct Hsome as (_ & Hm & Hc).
  { exists i. split; [|done]. apply elem_of_seq.
    apply lookup_lt_Some in Hi. lia. }
  simpl in Hm, Hc. exists move.
  split; [split; [done | apply lookup_lt_Some in Hc; lia]|]. split; [done|].
  unfold aiTurn, getBestMove. rewrite Hfold. cbn [mbind option_bind].
  rewrite bool_decide_eq_false_2; [done | lia].
Qed.

(** ** Playing against [getBestMove] *)

Lemma survives_unfold rounds aiSymbol (board : list Player) turn :
  survives rounds aiSymbol board turn =
  match checkWinner board with
  | Some r => negb (bool_decide (winner r = Won (opponent aiSymbol)))
  | None =>
      match rounds with
      | 0 => false
      | S rounds' =>
          if bool_decide (turn = aiSymbol) then
            match aiTurn board aiSymbol with
            | Some board' => survives rounds' aiSymbol board' (opponent aiSymbol)
            | None => true
            end
          else
            forallb
              (λ i, if bool_decide (board !! i = Some None)
                    then survives rounds' aiSymbol
                           (<[i := Some (opponent aiSymbol)]> board) aiSymbol
                    else true)
              (seq 0 (length board))
      end
  end.
Proof. by destruct rounds. Qed.

Lemma opponent_ne aiSymbol : opponent aiSymbol ≠ aiSymbol.
Proof. by destruct aiSymbol. Qed.

(** The exhaustive exploration covers every game: if it finds no lost
    line of play from a position, no game from that position is lost. *)
Lemma survives_sound aiSymbol (board : list Player) turn r :
  plays aiSymbol board turn r →
  ∀ rounds, survives rounds aiSymbol board turn = true →
            winner r ≠ Won (opponent aiSymbol).
Proof.
  induction 1 as [board turn r Hover
                 |board board' r Hopen Hturn Hrest IH
                 |board i r Hopen Hcell Hrest IH];
    intros rounds Hs; rewrite survives_unfold in Hs.
  - rewrite Hover in Hs. apply negb_true_iff in Hs.
    by apply bool_decide_eq_false_1 in Hs.
  - rewrite Hopen in Hs. destruct rounds as [|rounds]; [done|].
    rewrite bool_decide_eq_true_2 in Hs by done.
    rewrite Hturn in Hs. by apply (IH rounds).
  - rewrite Hopen in Hs. destruct rounds as [|rounds]; [done|].
    rewrite bool_decide_eq_false_2 in Hs by apply opponent_ne.
    pose proof (proj1 (List.forallb_forall _ _) Hs i) as Hi.
    cbv beta in Hi. rewrite bool_decide_eq_true_2 in Hi by done.
    apply (IH rounds), Hi, in_seq.
    apply lookup_lt_Some in Hcell. lia.
Qed.

(** A game the computer wins as O against an opponent that always takes the
    first empty cell: X0 O4 X1 O2 X3 O6. *)
Example plays_first_empty :
  plays O empty_board X (mkResult (Won O) (Some (2, 4, 6))).
Proof.
  apply (plays_opponent O empty_board 0); [reflexivity..|].
  apply (plays_ai O _ [Some X; None; None; None; Some O; None; None; None; None]);
    [reflexivity | vm_compute; reflexivity |].
  apply (plays_opponent O _ 1); [reflexivity..|].
  apply (plays_ai O _ [Some X; Some X; Some O; None; Some O; None; None; None; None]);
    [reflexivity | vm_compute; reflexivity |].
  apply (plays_opponent O _ 3); [reflexivity..|].
  apply (plays_ai O _ [Some X; Some X; Some O; Some X; Some O; None; Some O; None; None]);
    [reflexivity | vm_compute; reflexivity |].
  apply plays_over. reflexivity.
Qed.

(** The opening: the whole game tree is searched once. *)
Lemma opening_move : getBestMove empty_board X = Some (0%Z, empty_board).
Proof. vm_compute. reflexivity. Qed.

Lemma opening_turn :
  aiTurn empty_board X
  = Some [Some X; None; None; None; None; None; None; None; None].
Proof. unfold aiTurn. rewrite opening_move. reflexivity. Qed.

Lemma selfPlay_unfold rounds (board : list Player) turn :
  selfPlay rounds board turn =
  match checkWinner board with
  | Some r => Some r
  | None =>
      match rounds with
      | 0 => None
      | S rounds' =>
          board' ← aiTurn board turn;
          selfPlay rounds' board' (opponent turn)
      end
  end.
Proof. by destruct rounds. Qed.

Lemma selfPlay_draw : selfPlay 9 empty_board X = Some (mkResult Draw None).
Proof.
  rewrite selfPlay_unfold.
  replace (checkWinner empty_board) with (@None Result) by reflexivity.
  rewrite opening_turn. cbn [mbind option_bind].
  vm_compute. reflexivity.
Qed.

Lemma survives_moving_first : survives 10 X empty_board X = true.
Proof.
  rewrite survives_unfold.
  replace (checkWinner empty_board) with (@None Result) by reflexivity.
  rewrite bool_decide_eq_true_2 by done. rewrite opening_turn.
  vm_compute. reflexivity.
Qed.

Lemma survives_moving_second : survives 10 O empty_board X = true.
Proof. vm_compute. reflexivity. Qed.

(** C6.  From the empty board, with [getBestMove] playing both sides, the
    game ends in a Draw; and whichever side [getBestMove] plays, no game
    against it from the empty board, whatever the opponent does, ends with
    the opponent winning. *)
Theorem getBestMove_is_perfect :
  selfPlay 9 empty_board X = Some (mkResult Draw None)
  ∧ ∀ aiSymbol r,
      plays aiSymbol empty_board X r → winner r ≠ Won (opponent aiSymbol).
Proof.
  split; [apply selfPlay_draw|].
  intros aiSymbol r Hplay.
  apply (survives_sound _ _ _ _ Hplay 10).
  destruct aiSymbol; [apply survives_moving_first | apply survives_moving_second].
Qed.

End EngineSpec.

(* ===================================================================== *)
(** * More properties of the relay server                                 *)
(* ===================================================================== *)

Module ServerMore.
Import Server ServerShape ServerSpec.

(** ** Invariants of the registry *)

Lemma handle_rooms_cases socket m st code :
  rooms (handle socket m st).1 !! code = rooms st !! code
  ∨ (msg_room m = Some code
     ∧ ∃ room', rooms (handle socket m st).1 !! code = Some room'
        ∧ ((m = join_room code ∧ rooms st !! code = None
            ∧ room' = mkRoom [socket] empty_board "X")
           ∨ (∃ room, rooms st !! code = Some room
              ∧ ((m = join_room code ∧ length (players room) < 2
                  ∧ room' = mkRoom (players room ++ [socket])
                                   (board room) (turn room))
                 ∨ (∃ index symbol,
                      m = make_move code index symbol
                      ∧ array_get (board room) index = Some None
                      ∧ turn room = symbol
                      ∧ room' = mkRoom (players room)
                                       (array_set (board room) index symbol)
                                       (next_turn symbol))
                 ∨ (m = reset_game code
                    ∧ room' = mkRoom (players room) empty_board "X"))))).
Proof.
  destruct m as [code'|code' index symbol|code'|]; cbn [handle].
  - destruct (decide (code' = code)) as [->|Hne].
    + destruct (rooms st !! code) as [room|] eqn:Hroom.
      * destruct (decide (length (players room) < 2)) as [Hlt|Hge].
        -- right. split; [done|].
           rewrite (on_join_room_second _ _ _ _ Hroom Hlt). simpl.
           rewrite lookup_insert_eq. eexists. split; [done|].
           right. exists room. split; [done|]. by left.
        -- left. rewrite (on_join_room_full _ _ _ _ Hroom) by lia. done.
      * right. split; [done|]. rewrite (on_join_room_new _ _ _ Hroom). simpl.
        rewrite lookup_insert_eq. eexists. split; [done|]. by left.
    + left. unfold on_join_room. destruct (rooms st !! code') as [room|].
      * case_bool_decide; simpl; [by rewrite lookup_insert_ne | done].
      * simpl. by rewrite lookup_insert_ne.
  - destruct (move_allowed_dec st code' index symbol)
      as [(room & Hroom & Hcell & Hturn)|Hno].
    + rewrite (on_make_move_allowed _ _ _ _ _ Hroom Hcell Hturn).
      unfold moved. simpl.
      destruct (decide (code' = code)) as [->|Hne].
      * right. split; [done|]. rewrite lookup_insert_eq.
        eexists. split; [done|]. right. exists room. split; [done|].
        right. left. by exists index, symbol.
      * left. by rewrite lookup_insert_ne.
    + left. by rewrite (on_make_move_refused _ _ _ _ Hno).
  - destruct (rooms st !! code') as [room|] eqn:Hroom.
    + rewrite (on_reset_game_known _ _ _ Hroom). simpl.
      destruct (decide (code' = code)) as [->|Hne].
      * right. split; [done|]. rewrite lookup_insert_eq.
        eexists. split; [done|]. right. exists room. split; [done|].
        by right; right.
      * left. by rewrite lookup_insert_ne.
    + left. by rewrite (on_reset_game_unknown _ _ Hroom).
  - by left.
Qed.

(** An invariant of rooms that creation establishes and every change of a
    room keeps holds in every reachable state. *)
Lemma reachable_rooms (P : Room → Prop) :
  (∀ socket, P (mkRoom [socket] empty_board "X")) →
  (∀ room socket, P room → length (players room) < 2 →
                  P (mkRoom (players room ++ [socket]) (board room) (turn room))) →
  (∀ room index symbol,
     P room → array_get (board room) index = Some None → turn room = symbol →
     P (mkRoom (players room) (array_set (board room) index symbol)
               (next_turn symbol))) →
  (∀ room, P room → P (mkRoom (players room) empty_board "X")) →
  ∀ st, reachable st → ∀ code room, rooms st !! code = Some room → P room.
Proof.
  intros Hnew Hjoin Hmove Hreset st [tr <-].
  induction tr as [|[socket m] tr IH] using rev_ind.
  - intros code room Hroom. simpl in Hroom. by rewrite lookup_empty in Hroom.
  - intros code room. rewrite run_app. cbn [fst]. rewrite run_cons. cbn [fst run].
    set (st := (run init tr).1) in *.
    destruct (handle_rooms_cases socket m st code)
      as [->|(_ & room' & -> & Hcase)]; [apply IH|].
    intros [= <-].
    destruct Hcase as [(_ & _ & ->)|(room0 & Hroom0 & Hcase)]; [apply Hnew|].
    pose proof (IH _ _ Hroom0) as HP.
    destruct Hcase as [(_ & Hlt & ->)|[(index & symbol & _ & Hc & Ht & ->)|(_ & ->)]].
    + by apply Hjoin.
    + by apply Hmove.
    + by apply Hreset.
Qed.

Lemma marks_insert (b : list Cell) i symbol s :
  b !! i = Some None →
  marks s (<[i := Some symbol]> b)
  = if decide (symbol = s) then S (marks s b) else marks s b.
Proof.
  unfold marks. revert i.
  induction b as [|c b IH]; intros [|i] Hc; simpl in *; try done.
  - injection Hc as ->. rewrite (filter_cons_False _ None) by done.
    destruct (decide (symbol = s)) as [->|Hne].
    + by rewrite filter_cons_True.
    + rewrite filter_cons_False; [done | congruence].
  - specialize (IH i Hc).
    destruct (decide (c = Some s)) as [Hcs|Hcs].
    + rewrite !(filter_cons_True _ c) by done. simpl. rewrite IH.
      by destruct (decide (symbol = s)).
    + rewrite !(filter_cons_False _ c) by done. done.
Qed.

Lemma marks_empty s : marks s empty_board = 0.
Proof. reflexivity. Qed.

(** X1.  In every reachable state every room has one or two participants. *)
Theorem room_has_one_or_two_players st code room :
  reachable st →
  rooms st !! code = Some room →
  seats_ok room.
Proof.
  intros Hreach. revert code room.
  apply (reachable_rooms seats_ok); [| | | |done]; unfold seats_ok; simpl.
  - intros _. lia.
  - intros room socket Hok Hlt. rewrite length_app. simpl. lia.
  - done.
  - done.
Qed.

Lemma room_has_one_or_two_players_witness :
  let st := (run init [("s1", join_room "A"); ("s2", join_room "A");
                       ("s3", join_room "A")]).1 in
  ∃ room, rooms st !! "A" = Some room ∧ seats_ok room
          ∧ players room = ["s1"; "s2"].
Proof.
  cbv zeta. eexists. split; [vm_compute; reflexivity|]. split; [|reflexivity].
  apply (room_has_one_or_two_players
           _ "A" _
           (reachable_run [("s1", join_room "A"); ("s2", join_room "A");
                           ("s3", join_room "A")])).
  vm_compute. reflexivity.
Defined.

Lemma reachable_board_ok st code room :
  reachable st → rooms st !! code = Some room → board_ok room.
Proof.
  intros Hreach. revert code room.
  apply (reachable_rooms board_ok); [| | | |done]; unfold board_ok; simpl.
  - intros _. split; [done|]. split; [|by left].
    repeat constructor.
  - done.
  - intros room index symbol (Hlen & Hcells & Hturn) Hc Ht.
    apply array_get_Some in Hc as (_ & _ & Hc).
    unfold array_set. split; [by rewrite length_insert|]. split.
    + apply Forall_insert; [done|].
      destruct Hturn as [[HX _]|[HO _]]; subst symbol.
      * rewrite HX. right. by left.
      * rewrite HO. by right; right.
    + rewrite !(marks_insert _ _ _ _ Hc).
      destruct Hturn as [[HX Heq]|[HO Heq]]; subst symbol.
      * right. rewrite HX. split; [done|]. simpl. by rewrite Heq.
      * left. rewrite HO. split; [done|]. simpl. by rewrite Heq.
  - intros room _. split; [done|]. split; [|by left].
    repeat constructor.
Qed.

(** X2.  In every reachable state every board has nine cells, each [null],
    ['X'] or ['O'], and the marks follow the turn: as many X as O when it
    is X's turn, one X more when it is O's. *)
Theorem board_follows_turn st code room :
  reachable st →
  rooms st !! code = Some room →
  board_ok room.
Proof. apply reachable_board_ok. Qed.

Lemma board_follows_turn_witness :
  let st := (run init [("s1", join_room "A"); ("s2", join_room "A");
                       ("s1", make_move "A" 4 "X")]).1 in
  ∃ room, rooms st !! "A" = Some room ∧ board_ok room ∧ turn room = "O".
Proof.
  cbv zeta. eexists. split; [vm_compute; reflexivity|]. split; [|reflexivity].
  apply (board_follows_turn
           _ "A" _
           (reachable_run [("s1", join_room "A"); ("s2", join_room "A");
                           ("s1", make_move "A" 4 "X")])).
  vm_compute. reflexivity.
Defined.

(** ** What the registry keeps *)

(** X3.  Nothing leaves the registry: along any run a room that exists
    keeps existing and keeps its participants in place, later joiners
    being appended; [disconnect] removes nobody. *)
Theorem rooms_and_players_persist st tr code room :
  rooms st !! code = Some room →
  ∃ room', rooms (run st tr).1 !! code = Some room'
           ∧ players room `prefix_of` players room'.
Proof.
  revert st room. induction tr as [|[socket m] tr IH]; intros st room Hroom.
  - by exists room.
  - rewrite run_cons. cbn [fst].
    assert (∃ room1, rooms (handle socket m st).1 !! code = Some room1
                     ∧ players room `prefix_of` players room1)
      as (room1 & Hroom1 & Hpre1).
    { destruct (handle_rooms_cases socket m st code)
        as [->|(_ & room' & -> & Hcase)]; [by exists room|].
      exists room'. split; [done|].
      destruct Hcase as [(_ & Hnone & _)|(room0 & Hroom0 & Hcase)]; [congruence|].
      assert (room0 = room) as -> by congruence.
      destruct Hcase as [(_ & _ & ->)|[(index & symbol & _ & _ & _ & ->)|(_ & ->)]];
        simpl; [by apply prefix_app_r | done | done]. }
    destruct (IH _ _ Hroom1) as (room2 & Hroom2 & Hpre2).
    exists room2. split; [done|]. by etrans.
Qed.

Lemma rooms_and_players_persist_witness :
  let st := (run init [("s1", join_room "A")]).1 in
  let tr := [("s1", disconnect); ("s2", join_room "A"); ("s2", reset_game "A")] in
  ∃ room', rooms (run st tr).1 !! "A" = Some room'
           ∧ ["s1"] `prefix_of` players room'.
Proof.
  cbv zeta.
  apply (rooms_and_players_persist _ _ "A" (mkRoom ["s1"] empty_board "X")).
  vm_compute. reflexivity.
Defined.

(** X4.  A message leaves every room it does not name as it is, and sends
    nothing to that room's group. *)
Theorem other_rooms_untouched socket m st code :
  msg_room m ≠ Some code →
  rooms (handle socket m st).1 !! code = rooms st !! code
  ∧ ∀ recipients sm, Broadcast code recipients sm ∉ (handle socket m st).2.
Proof.
  intros Hother. split.
  - destruct (handle_rooms_cases socket m st code) as [->|[Hm _]]; done.
  - intros recipients sm Hin.
    destruct m as [code'|code' index symbol|code'|]; cbn [handle msg_room] in *.
    + unfold on_join_room in Hin. destruct (rooms st !! code') as [room|].
      * case_bool_decide; simpl in Hin.
        -- apply elem_of_cons in Hin as [Hin|Hin%list_elem_of_singleton];
             [done | congruence].
        -- by apply list_elem_of_singleton in Hin.
      * by apply list_elem_of_singleton in Hin.
    + unfold on_make_move in Hin. destruct (rooms st !! code') as [room|];
        [|by apply elem_of_nil in Hin].
      destruct (bool_decide _ && bool_decide _); [|by apply elem_of_nil in Hin].
      apply list_elem_of_singleton in Hin. congruence.
    + unfold on_reset_game in Hin. destruct (rooms st !! code') as [room|];
        [|by apply elem_of_nil in Hin].
      apply list_elem_of_singleton in Hin. congruence.
    + by apply elem_of_nil in Hin.
Qed.

Lemma other_rooms_untouched_witness :
  let st := (run init [("s1", join_room "A"); ("s2", join_room "A")]).1 in
  rooms (handle "s3" (reset_game "B") st).1 !! "A" = rooms st !! "A"
  ∧ rooms (handle "s3" (join_room "B") st).1 !! "A" = rooms st !! "A".
Proof.
  cbv zeta. split.
  - refine (proj1 (other_rooms_untouched "s3" (reset_game "B") _ "A" _)). done.
  - refine (proj1 (other_rooms_untouched "s3" (join_room "B") _ "A" _)). done.
Defined.

(** ** What is sent *)

Lemma handle_broadcast socket m st code recipients sm :
  Broadcast code recipients sm ∈ (handle socket m st).2 →
  msg_room m = Some code
  ∧ recipients = members (handle socket m st).1 code
  ∧ ∃ room', rooms (handle socket m st).1 !! code = Some room'
             ∧ payload sm = Some (board room', turn room').
Proof.
  destruct m as [code'|code' index symbol|code'|]; cbn [handle msg_room].
  - destruct (rooms st !! code') as [room|] eqn:Hroom.
    + destruct (decide (length (players room) < 2)) as [Hlt|Hge].
      * rewrite (on_join_room_second _ _ _ _ Hroom Hlt). cbn [fst snd].
        intros [Hin|Hin%list_elem_of_singleton]%elem_of_cons; [done|].
        injection Hin as -> -> ->. split; [done|]. split.
        { unfold members, socket_join. simpl. by rewrite lookup_insert_eq. }
        eexists. split; [by simpl; rewrite lookup_insert_eq | done].
      * rewrite (on_join_room_full _ _ _ _ Hroom) by lia.
        by intros Hin%list_elem_of_singleton.
    + rewrite (on_join_room_new _ _ _ Hroom).
      by intros Hin%list_elem_of_singleton.
  - destruct (move_allowed_dec st code' index symbol)
      as [(room & Hroom & Hcell & Hturn)|Hno].
    + rewrite (on_make_move_allowed _ _ _ _ _ Hroom Hcell Hturn). cbn [fst snd].
      intros Hin%list_elem_of_singleton. injection Hin as -> -> ->.
      split; [done|]. split; [done|].
      eexists. split; [by simpl; rewrite lookup_insert_eq | done].
    + rewrite (on_make_move_refused _ _ _ _ Hno). by intros Hin%elem_of_nil.
  - destruct (rooms st !! code') as [room|] eqn:Hroom.
    + rewrite (on_reset_game_known _ _ _ Hroom). cbn [fst snd].
      intros Hin%list_elem_of_singleton. injection Hin as -> -> ->.
      split; [done|]. split; [done|].
      eexists. split; [by simpl; rewrite lookup_insert_eq | done].
    + rewrite (on_reset_game_unknown _ _ Hroom). by intros Hin%elem_of_nil.
  - by intros Hin%elem_of_nil.
Qed.

(** X5.  Whatever the message, a broadcast goes to the group of the room
    the message names, as that group is once the message is handled, and
    carries that room's whole board and turn as they are then. *)
Theorem broadcast_carries_new_state socket m st code recipients sm :
  Broadcast code recipients sm ∈ (handle socket m st).2 →
  msg_room m = Some code
  ∧ recipients = members (handle socket m st).1 code
  ∧ ∃ room', rooms (handle socket m st).1 !! code = Some room'
             ∧ payload sm = Some (board room', turn room').
Proof. apply handle_broadcast. Qed.

Lemma broadcast_carries_new_state_witness :
  let st := (run init [("s1", join_room "A"); ("s2", join_room "A")]).1 in
  let st' := (handle "s1" (make_move "A" 0 "X") st).1 in
  ∃ room', rooms st' !! "A" = Some room'
           ∧ payload (move_made (Some "X" :: replicate 8 None) "O")
             = Some (board room', turn room').
Proof.
  cbv zeta.
  refine (proj2 (proj2 (broadcast_carries_new_state
                          "s1" (make_move "A" 0 "X") _ "A" _ _ _))).
  vm_compute. left.
Defined.

(** X6.  The server answers one connection alone only on [join_room], and
    then it is the joiner: an assignment of X or O, or "Room is full". *)
Theorem unicast_only_to_joiner socket m st s sm :
  Unicast s sm ∈ (handle socket m st).2 →
  s = socket
  ∧ (∃ code, m = join_room code)
  ∧ (sm = player_assignment "X" ∨ sm = player_assignment "O"
     ∨ sm = error "Room is full").
Proof.
  destruct m as [code'|code' index symbol|code'|]; cbn [handle].
  - unfold on_join_room. destruct (rooms st !! code') as [room|].
    + case_bool_decide; simpl.
      * intros [Hin|Hin%list_elem_of_singleton]%elem_of_cons; [|done].
        injection Hin as -> ->. split; [done|]. split; [by eexists|].
        by right; left.
      * intros Hin%list_elem_of_singleton. injection Hin as -> ->.
        split; [done|]. split; [by eexists|]. by right; right.
    + simpl. intros Hin%list_elem_of_singleton. injection Hin as -> ->.
      split; [done|]. split; [by eexists|]. by left.
  - unfold on_make_move. destruct (rooms st !! code') as [room|];
      [|by intros Hin%elem_of_nil].
    destruct (bool_decide _ && bool_decide _); [|by intros Hin%elem_of_nil].
    by intros Hin%list_elem_of_singleton.
  - unfold on_reset_game. destruct (rooms st !! code') as [room|];
      [|by intros Hin%elem_of_nil].
    by intros Hin%list_elem_of_singleton.
  - by intros Hin%elem_of_nil.
Qed.

Lemma unicast_only_to_joiner_witness :
  Unicast "s1" (player_assignment "X") ∈ (handle "s1" (join_room "A") init).2
  ∧ ∃ code, join_room "A" = join_room code.
Proof.
  assert (Unicast "s1" (player_assignment "X")
          ∈ (handle "s1" (join_room "A") init).2) as Hin.
  { vm_compute. left. }
  split; [exact Hin|].
  exact (proj1 (proj2 (unicast_only_to_joiner _ _ _ _ _ Hin))).
Defined.

(** X7.  A mark stays where it is until the room is reset: along any run
    without a [reset_game] for the room, a cell that holds a symbol keeps
    holding it. *)
Theorem marks_stay_until_reset st tr code room i symbol :
  rooms st !! code = Some room →
  board room !! i = Some (Some symbol) →
  (∀ socket, (socket, reset_game code) ∉ tr) →
  ∃ room', rooms (run st tr).1 !! code = Some room'
           ∧ board room' !! i = Some (Some symbol).
Proof.
  revert st room. induction tr as [|[socket m] tr IH]; intros st room Hroom Hi Hnr.
  - by exists room.
  - rewrite run_cons. cbn [fst].
    assert (∃ room1, rooms (handle socket m st).1 !! code = Some room1
                     ∧ board room1 !! i = Some (Some symbol))
      as (room1 & Hroom1 & Hi1).
    { destruct (handle_rooms_cases socket m st code)
        as [->|(_ & room' & -> & Hcase)]; [by exists room|].
      exists room'. split; [done|].
      destruct Hcase as [(_ & Hnone & _)|(room0 & Hroom0 & Hcase)]; [congruence|].
      assert (room0 = room) as -> by congruence.
      destruct Hcase as [(_ & _ & ->)|[(index & s & _ & Hc & _ & ->)|(-> & _)]];
        simpl; [done | |].
      - apply array_get_Some in Hc as (_ & _ & Hc). unfold array_set.
        rewrite list_lookup_insert_ne; [done|]. intros <-. congruence.
      - destruct (Hnr socket). by left. }
    apply (IH _ _ Hroom1 Hi1). intros s Hin. apply (Hnr s). by right.
Qed.

Lemma marks_stay_until_reset_witness :
  let st := (run init [("s1", join_room "A"); ("s2", join_room "A");
                       ("s1", make_move "A" 4 "X")]).1 in
  let tr := [("s2", make_move "A" 4 "O"); ("s2", make_move "A" 0 "O")] in
  ∃ room', rooms (run st tr).1 !! "A" = Some room'
           ∧ board room' !! 4 = Some (Some "X").
Proof.
  cbv zeta.
  eapply (marks_stay_until_reset _ _ "A" _ 4 "X").
  - vm_compute. reflexivity.
  - reflexivity.
  - intros socket [Hin|Hin%list_elem_of_singleton]%elem_of_cons; discriminate Hin.
Defined.

End ServerMore.

(* ===================================================================== *)
(** * More properties of the board engine                                 *)
(* ===================================================================== *)

Module EngineMore.
Import Engine EngineShape EngineSpec.

(** ** The scores of [minimax] *)

(** The loop of [minimax] when every recursive call answers with a score
    in a range [Q]: the loop answers in that range as soon as one cell is
    empty, and with what it started from otherwise. *)
Lemma fold_score_step_range (squares : list Player) pick mark search
    (Q : Z → Prop) (start : Score) l b :
  (∀ z, start ≠ Fin z) →
  (∀ z b, Q z → b = start ∨ (∃ y, b = Fin y ∧ Q y) →
          ∃ z', pick (Fin z) b = Fin z' ∧ Q z') →
  (∀ i, i ∈ l → squares !! i = Some None →
        ∃ z, search (<[i := Some mark]> squares)
             = Some (Fin z, <[i := Some mark]> squares) ∧ Q z) →
  (∀ i, i ∈ l → i < length squares) →
  b = start ∨ (∃ y, b = Fin y ∧ Q y) →
  ∃ b', fold_left (score_step pick mark search) l (Some (b, squares))
        = Some (b', squares)
        ∧ ((∃ y, b' = Fin y ∧ Q y)
           ∨ (b' = start ∧ b = start
              ∧ ∀ i, i ∈ l → truthy (squares !! i) = true)).
Proof.
  intros Hstart Hpick. revert b.
  induction l as [|i l IH]; intros b Hsearch Hl Hb; cbn [fold_left].
  - exists b. split; [done|].
    destruct Hb as [->|Hb]; [right | by left].
    split; [done|]. split; [done|]. by intros i Hi%elem_of_nil.
  - assert (∀ j, j ∈ l → j < length squares) as Hl'
        by (intros j Hj; apply Hl; by right).
    assert (∀ j, j ∈ l → squares !! j = Some None →
              ∃ z, search (<[j := Some mark]> squares)
                   = Some (Fin z, <[j := Some mark]> squares) ∧ Q z) as Hsearch'
        by (intros j Hj; apply Hsearch; by right).
    destruct (truthy (squares !! i)) eqn:Hcell.
    + rewrite (score_step_skip _ _ _ _ _ _ Hcell).
      destruct (IH b Hsearch' Hl' Hb) as (b' & Hfold & Hcase).
      exists b'. split; [done|].
      destruct Hcase as [Hfin|(-> & -> & Hall)]; [by left | right].
      split; [done|]. split; [done|].
      intros j [->|Hj]%elem_of_cons; [done | by apply Hall].
    + apply truthy_false in Hcell; [|apply Hl; by left].
      destruct (Hsearch i) as (z & Hz & HQ); [by left | done |].
      rewrite (score_step_try _ _ _ _ _ _ _ Hcell Hz).
      destruct (Hpick z b HQ Hb) as (z' & Hz' & HQ').
      destruct (IH (pick (Fin z) b) Hsearch' Hl') as (b' & Hfold & Hcase).
      { right. by exists z'. }
      exists b'. split; [done|].
      destruct Hcase as [Hfin|(_ & Hpicked & _)]; [by left|].
      rewrite Hz' in Hpicked. by destruct (Hstart z').
Qed.

Lemma score_max_range (Q : Z → Prop) z b :
  Q z → b = NegInf ∨ (∃ y, b = Fin y ∧ Q y) →
  ∃ z', score_max (Fin z) b = Fin z' ∧ Q z'.
Proof.
  intros HQ [->|(y & -> & HQy)]; [by exists z|].
  unfold score_max, score_gt. case_bool_decide; eauto.
Qed.

Lemma score_min_range (Q : Z → Prop) z b :
  Q z → b = PosInf ∨ (∃ y, b = Fin y ∧ Q y) →
  ∃ z', score_min (Fin z) b = Fin z' ∧ Q z'.
Proof.
  intros HQ [->|(y & -> & HQy)]; [by exists z|].
  unfold score_min, score_gt. case_bool_decide; eauto.
Qed.

(** What [minimax] answers, by the four cases of its body. *)
Lemma minimax_cases fuel :
  ∀ (squares : list Player) depth isMaximizing aiSymbol,
    length squares = 9 →
    empties squares < fuel →
    (0 ≤ depth)%Z →
    (depth + Z.of_nat (empties squares) ≤ 10)%Z →
    ∃ z, minimax fuel squares depth isMaximizing aiSymbol
         = Some (Fin z, squares)
         ∧ (winner_is (checkWinner squares) (Won aiSymbol) = true
            ∧ z = (10 - depth)%Z
            ∨ winner_is (checkWinner squares) (Won aiSymbol) = false
              ∧ winner_is (checkWinner squares) (Won (opponent aiSymbol)) = true
              ∧ z = (depth - 10)%Z
            ∨ winner_is (checkWinner squares) (Won aiSymbol) = false
              ∧ winner_is (checkWinner squares) Draw = true
              ∧ z = 0%Z
            ∨ checkWinner squares = None
              ∧ (depth - 9 ≤ z ≤ 9 - depth)%Z).
Proof.
  induction fuel as [|fuel IH];
    intros squares depth isMaximizing aiSymbol Hlen Hfuel Hd He; [lia|].
  rewrite minimax_unfold.
  destruct (winner_is _ (Won aiSymbol)) eqn:Hai; [eexists; split; [done|]; by left|].
  destruct (winner_is _ (Won (opponent aiSymbol))) eqn:Hopp;
    [eexists; split; [done|]; right; by left|].
  destruct (winner_is _ Draw) eqn:Hdraw;
    [eexists; split; [done|]; right; right; by left|].
  pose proof (winner_is_none _ _ Hai Hopp Hdraw) as Hnone.
  destruct (checkWinner_None_empty _ Hnone) as [i0 Hi0].
  assert (i0 ∈ seq 0 9) as Hin0.
  { apply elem_of_seq. apply lookup_lt_Some in Hi0. lia. }
  assert (∀ i, i ∈ seq 0 9 → i < length squares) as Hrange.
  { intros i Hi%elem_of_seq. lia. }
  set (Q := λ z : Z, (depth - 9 ≤ z ≤ 9 - depth)%Z).
  assert (∀ p isMax i, squares !! i = Some None →
            ∃ z, minimax fuel (<[i := Some p]> squares) (depth + 1) isMax aiSymbol
                 = Some (Fin z, <[i := Some p]> squares) ∧ Q z) as Hchild.
  { intros p isMax i Hc.
    pose proof (empties_insert squares i p Hc) as Hem.
    destruct (IH (<[i := Some p]> squares) (depth + 1)%Z isMax aiSymbol)
      as (z & Hz & Hcase); [by rewrite length_insert | lia | lia | lia |].
    exists z. split; [done|]. unfold Q.
    destruct Hcase as [(_ & ->)|[(_ & _ & ->)|[(_ & _ & ->)|(_ & Hb)]]]; lia. }
  destruct isMaximizing.
  - destruct (fold_score_step_range squares score_max aiSymbol
                (λ sq, minimax fuel sq (depth + 1) false aiSymbol)
                Q NegInf (seq 0 9) NegInf)
      as (b' & Hfold & Hcase);
      [done | apply score_max_range | | done | by left |].
    + intros i _ Hc. by apply Hchild.
    + destruct Hcase as [(z & -> & HQ)|(_ & _ & Hall)].
      * exists z. split; [done|]. by right; right; right.
      * specialize (Hall i0 Hin0). by rewrite Hi0 in Hall.
  - destruct (fold_score_step_range squares score_min (opponent aiSymbol)
                (λ sq, minimax fuel sq (depth + 1) true aiSymbol)
                Q PosInf (seq 0 9) PosInf)
      as (b' & Hfold & Hcase);
      [done | apply score_min_range | | done | by left |].
    + intros i _ Hc. by apply Hchild.
    + destruct Hcase as [(z & -> & HQ)|(_ & _ & Hall)].
      * exists z. split; [done|]. by right; right; right.
      * specialize (Hall i0 Hin0). by rewrite Hi0 in Hall.
Qed.

(** X8.  On a 9-cell board searched at a depth from 0 to 9 that leaves room
    for its empty cells, [minimax] gives the board back and answers with a
    score between [depth - 10] and [10 - depth]; the top score [10 - depth]
    is given exactly when the searching side has already won on that
    board, and the bottom score [depth - 10] only when the other side
    has. *)
Theorem minimax_score_range fuel (squares : list Player) depth isMaximizing aiSymbol :
  length squares = 9 →
  empties squares < fuel →
  (0 ≤ depth ≤ 9)%Z →
  (depth + Z.of_nat (empties squares) ≤ 10)%Z →
  ∃ z, minimax fuel squares depth isMaximizing aiSymbol = Some (Fin z, squares)
       ∧ (depth - 10 ≤ z ≤ 10 - depth)%Z
       ∧ (z = (10 - depth)%Z ↔
          winner_is (checkWinner squares) (Won aiSymbol) = true)
       ∧ (z = (depth - 10)%Z →
          winner_is (checkWinner squares) (Won (opponent aiSymbol)) = true).
Proof.
  intros Hlen Hfuel Hd He.
  destruct (minimax_cases fuel squares depth isMaximizing aiSymbol)
    as (z & Hz & Hcase); [done | done | lia | done |].
  exists z. split; [done|].
  destruct Hcase as [(Hai & ->)|[(Hai & Hopp & ->)|[(Hai & Hdraw & ->)|(Hnone & Hb)]]].
  - split; [lia|]. split; [done|]. intros Heq. lia.
  - split; [lia|]. split; [|done]. split; [lia | congruence].
  - split; [lia|]. split; [|lia]. split; [lia | congruence].
  - split; [lia|]. split; [|lia]. split; [lia|]. by rewrite Hnone.
Qed.

Lemma minimax_score_range_witness :
  ∃ z, minimax 10 [Some X; Some X; Some X; Some O; Some O; None; None; None; None]
                  0 false X
       = Some (Fin z, [Some X; Some X; Some X; Some O; Some O; None; None; None; None])
       ∧ (0 - 10 ≤ z ≤ 10 - 0)%Z.
Proof.
  destruct (minimax_score_range
              10 [Some X; Some X; Some X; Some O; Some O; None; None; None; None]
              0 false X eq_refl) as (z & Hz & Hb & _).
  - vm_compute. lia.
  - lia.
  - vm_compute. discriminate.
  - by exists z.
Defined.

(** ** [getBestMove] and a win in one move *)






End EngineMore.

(* ===================================================================== *)
(** * Properties of the client                                            *)
(* ===================================================================== *)

Module ClientSpec.
Import Engine EngineSpec Client.

(** ** What the handlers leave alone *)

Lemma announce_keeps m result a :
  mode (announce m result a) = mode a
  ∧ board (announce m result a) = board a
  ∧ isXNext (announce m result a) = isXNext a
  ∧ userSymbol (announce m result a) = userSymbol a
  ∧ showSymbolSelection (announce m result a) = showSymbolSelection a
  ∧ isMultiReady (announce m result a) = isMultiReady a
  ∧ mySymbol (announce m result a) = mySymbol a.
Proof. by destruct result, m. Qed.

Lemma announce_winner m result a :
  winner (announce m result a)
  = match result with Some r => Some (Engine.winner r) | None => winner a end
  ∧ winningLine (announce m result a)
    = match result with Some r => line r | None => winningLine a end.
Proof. by destruct result, m. Qed.


(** ** Placing a mark *)

Lemma marked_insert (b : list Player) i p q :
  b !! i = Some None →
  marked q (<[i := Some p]> b)
  = if decide (p = q) then S (marked q b) else marked q b.
Proof.
  unfold marked. revert i.
  induction b as [|c b IH]; intros [|i] Hc; simpl in *; try done.
  - injection Hc as ->. rewrite (filter_cons_False _ None) by done.
    destruct (decide (p = q)) as [->|Hne].
    + by rewrite filter_cons_True.
    + rewrite filter_cons_False; [done | congruence].
  - specialize (IH i Hc).
    destruct (decide (c = Some q)) as [Hcq|Hcq].
    + rewrite !(filter_cons_True _ c) by done. simpl. rewrite IH.
      by destruct (decide (p = q)).
    + rewrite !(filter_cons_False _ c) by done. done.
Qed.

Lemma screen_ok_open a :
  screen_ok a → winner a = None →
  checkWinner (board a) = None ∧ winningLine a = None.
Proof.
  intros (_ & _ & Hw & Hl) Hnone. rewrite Hnone in Hw.
  destruct (checkWinner (board a)) as [r|]; [done|]. by rewrite Hl.
Qed.

Lemma placed_screen_ok m i a :
  screen_ok a → winner a = None → board a !! i = Some None →
  screen_ok (placed m i a).
Proof.
  intros Hok Hnone Hc.
  destruct (screen_ok_open a Hok Hnone) as [_ Hline].
  destruct Hok as (Hlen & Hpar & _ & _).
  unfold screen_ok, placed.
  destruct (announce_keeps m
              (checkWinner (<[i := Some (turn_mark (isXNext a))]> (board a)))
              (setIsXNext (negb (isXNext a))
                 (setBoard (<[i := Some (turn_mark (isXNext a))]> (board a)) a)))
    as (_ & -> & -> & _).
  destruct (announce_winner m
              (checkWinner (<[i := Some (turn_mark (isXNext a))]> (board a)))
              (setIsXNext (negb (isXNext a))
                 (setBoard (<[i := Some (turn_mark (isXNext a))]> (board a)) a)))
    as (-> & ->).
  simpl. split; [by rewrite length_insert|]. split.
  - rewrite !(marked_insert _ _ _ _ Hc).
    destruct (isXNext a); simpl in *; lia.
  - rewrite Hnone, Hline.
    by destruct (checkWinner (<[i := Some (turn_mark (isXNext a))]> (board a))).
Qed.

Lemma fresh_screen_ok a :
  screen_ok (setWinningLine None
               (setWinner None (setIsXNext true (setBoard empty_board a)))).
Proof. by repeat split. Qed.

(** The local branch of [handleSquareClick]. *)
Lemma handleSquareClick_cases i a :
  handleSquareClick i a = (a, [])
  ∨ (mode a = Some multi ∧ ∃ sent, handleSquareClick i a = (a, sent))
  ∨ (mode a ≠ Some multi
     ∧ truthy (board a !! i) = false ∧ winner a = None
     ∧ (mode a = Some single → userSymbol a = Some (turn_mark (isXNext a)))
     ∧ handleSquareClick i a = (placed (mode a) i a, [])).
Proof.
  unfold handleSquareClick.
  destruct (truthy (board a !! i)) eqn:Hc; [by left|].
  case_bool_decide as Hw; [by left|]. cbn [orb].
  assert (winner a = None) as Hnone by by destruct (winner a); [destruct Hw|].
  destruct (bool_decide (mode a = Some single)
            && bool_decide (Some (turn_mark (isXNext a)) ≠ userSymbol a)) eqn:Hs;
    [by left|].
  destruct (decide (mode a = Some multi)) as [Hm|Hm].
  - rewrite (bool_decide_eq_true_2 _ Hm).
    right. left. split; [done|]. destruct (_ || _ || _); by eexists.
  - rewrite (bool_decide_eq_false_2 _ Hm).
    right. right. split; [done|]. split; [done|]. split; [done|].
    split; [|done]. intros Hsingle.
    rewrite bool_decide_eq_true_2 in Hs by done. cbn [andb] in Hs.
    apply bool_decide_eq_false_1 in Hs.
    destruct (decide (userSymbol a = Some (turn_mark (isXNext a)))); [done|].
    destruct Hs. congruence.
Qed.

(** The computer's turn, when it is taken. *)
Lemma aiEffect_cases a :
  aiEffect a = a
  ∨ ∃ u, mode a = Some single ∧ userSymbol a = Some u
         ∧ turn_mark (isXNext a) = opponent u ∧ winner a = None
         ∧ ∃ newBoard,
             aiTurn (board a) (opponent u) = Some newBoard
             ∧ aiEffect a
               = announce (mode a) (checkWinner newBoard)
                   (setIsXNext (negb (isXNext a)) (setBoard newBoard a)).
Proof.
  unfold aiEffect.
  destruct (bool_decide (mode a = Some single) && bool_decide (userSymbol a ≠ None)
            && bool_decide (Some (turn_mark (isXNext a)) ≠ userSymbol a)
            && bool_decide (winner a = None)) eqn:Hcond; [|by left].
  apply andb_prop in Hcond as [Hcond Hw%bool_decide_eq_true_1].
  apply andb_prop in Hcond as [Hcond Ht%bool_decide_eq_true_1].
  apply andb_prop in Hcond as [Hm%bool_decide_eq_true_1 Hu%bool_decide_eq_true_1].
  destruct (userSymbol a) as [u|] eqn:Husr; [|done].
  assert ((if bool_decide (Some u = Some X) then O else X) = opponent u) as ->.
  { by destruct u. }
  assert (turn_mark (isXNext a) = opponent u) as Hturn.
  { destruct (isXNext a), u; simpl in *; congruence. }
  destruct (aiTurn (board a) (opponent u)) as [newBoard|] eqn:Hai; [|by left].
  right. exists u. split; [done|]. split; [done|]. split; [done|]. split; [done|].
  exists newBoard. split; [done|].
  replace (if bool_decide (opponent u = X) then false else true)
    with (negb (isXNext a)); [done|].
  destruct (isXNext a), u; simpl in *; congruence.
Qed.

Lemma aiEffect_placed a :
  screen_ok a →
  aiEffect a = a
  ∨ ∃ u i, mode a = Some single ∧ userSymbol a = Some u
           ∧ turn_mark (isXNext a) = opponent u ∧ winner a = None
           ∧ board a !! i = Some None
           ∧ aiTurn (board a) (opponent u)
             = Some (<[i := Some (opponent u)]> (board a))
           ∧ aiEffect a = placed (mode a) i a.
Proof.
  intros Hok.
  destruct (aiEffect_cases a)
    as [Hsame|(u & Hm & Hu & Hturn & Hw & newBoard & Hai & Heff)]; [by left|].
  right. destruct (screen_ok_open a Hok Hw) as [Hopen _].
  destruct Hok as (Hlen & _).
  destruct (aiTurn_total (board a) (opponent u) Hlen Hopen)
    as (move & Hrange & Hc & Hai').
  exists u, (Z.to_nat move). split; [done|]. split; [done|]. split; [done|].
  split; [done|]. split; [done|]. split; [done|].
  rewrite Heff. unfold placed. rewrite Hturn.
  assert (newBoard = <[Z.to_nat move := Some (opponent u)]> (board a)) as ->
      by congruence.
  done.
Qed.

(** ** Sessions *)

Lemma session_snoc actions action :
  session (actions ++ [action]) = act (session actions) action.
Proof. unfold session. by rewrite fold_left_app. Qed.

Lemma act_screen_ok a action : screen_ok a → screen_ok (act a action).
Proof.
  intros Hok. unfold act.
  destruct (enabled a action) eqn:Hen; [|done].
  destruct action as [m|s|i| | |]; cbn [handler].
  - by destruct m.
  - done.
  - destruct (handleSquareClick_cases i a)
      as [->|[(_ & sent & ->)|(_ & Hc & Hw & _ & ->)]]; [done..|].
    cbn [fst]. apply placed_screen_ok; [done..|].
    apply andb_prop in Hen as [_ Hi%bool_decide_eq_true_1].
    by apply truthy_false.
  - destruct (aiEffect_placed a Hok)
      as [->|(u & i & _ & _ & _ & Hw & Hc & _ & ->)]; [done|].
    by apply placed_screen_ok.
  - unfold resetGame. case_bool_decide; [done|]. apply fresh_screen_ok.
  - by repeat split.
Qed.

Lemma session_screen actions : screen_ok (session actions).
Proof.
  induction actions as [|action actions IH] using rev_ind.
  - by repeat split.
  - rewrite session_snoc. by apply act_screen_ok.
Qed.

(** X10.  Throughout a session on one device the board on screen has nine
    cells, holds as many X as O on X's turn and one X more on O's, and the
    winner banner and the highlighted line are exactly what [checkWinner]
    says of that board. *)
Theorem session_screen_ok actions : screen_ok (session actions).
Proof. apply session_screen. Qed.

(** ** The game against the computer *)

Lemma opponent_opponent u : opponent (opponent u) = u.
Proof. by destruct u. Qed.

Lemma turn_mark_negb b : turn_mark (negb b) = opponent (turn_mark b).
Proof. by destruct b. Qed.

Lemma survives_over k aiSymbol (b : list Player) turn r :
  checkWinner b = Some r →
  survives k aiSymbol b turn = true →
  Engine.winner r ≠ Won (opponent aiSymbol).
Proof.
  intros Hover. rewrite survives_unfold, Hover.
  intros Hs%negb_true_iff. by apply bool_decide_eq_false_1 in Hs.
Qed.

(** One move further in the exhaustive exploration: the computer's own
    move, or any cell the opponent takes. *)
Lemma survives_next k aiSymbol (b : list Player) turn i :
  checkWinner b = None →
  survives k aiSymbol b turn = true →
  b !! i = Some None →
  (turn = aiSymbol → aiTurn b aiSymbol = Some (<[i := Some aiSymbol]> b)) →
  (turn ≠ aiSymbol → turn = opponent aiSymbol) →
  ∃ k', survives k' aiSymbol (<[i := Some turn]> b) (opponent turn) = true.
Proof.
  intros Hopen Hs Hc Hai Hopp. rewrite survives_unfold, Hopen in Hs.
  destruct k as [|k]; [done|]. exists k.
  destruct (decide (turn = aiSymbol)) as [->|Hne].
  - rewrite bool_decide_eq_true_2 in Hs by done. by rewrite (Hai eq_refl) in Hs.
  - rewrite bool_decide_eq_false_2 in Hs by done.
    pose proof (proj1 (List.forallb_forall _ _) Hs i) as Hi. cbv beta in Hi.
    rewrite bool_decide_eq_true_2 in Hi by done.
    rewrite (Hopp Hne), opponent_opponent. apply Hi, in_seq.
    apply lookup_lt_Some in Hc. lia.
Qed.

Lemma placed_solo m i a u :
  screen_ok a →
  userSymbol a = Some u →
  winner a = None →
  (∃ k, survives k (opponent u) (board a) (turn_mark (isXNext a)) = true) →
  board a !! i = Some None →
  (turn_mark (isXNext a) = opponent u →
   aiTurn (board a) (opponent u) = Some (<[i := Some (opponent u)]> (board a))) →
  (winner (placed m i a) = None →
   ∃ k, survives k (opponent u) (board (placed m i a))
                 (turn_mark (isXNext (placed m i a))) = true)
  ∧ winner (placed m i a) ≠ Some (Won u).
Proof.
  intros Hok Hu Hw [k Hs] Hc Hai.
  destruct (screen_ok_open a Hok Hw) as [Hopen _].
  destruct (survives_next k (opponent u) (board a) (turn_mark (isXNext a)) i
              Hopen Hs Hc Hai) as [k' Hs'].
  { intros Hne. rewrite opponent_opponent.
    destruct (turn_mark (isXNext a)), u; simpl in *; congruence. }
  unfold placed.
  destruct (announce_keeps m
              (checkWinner (<[i := Some (turn_mark (isXNext a))]> (board a)))
              (setIsXNext (negb (isXNext a))
                 (setBoard (<[i := Some (turn_mark (isXNext a))]> (board a)) a)))
    as (_ & -> & -> & _).
  destruct (announce_winner m
              (checkWinner (<[i := Some (turn_mark (isXNext a))]> (board a)))
              (setIsXNext (negb (isXNext a))
                 (setBoard (<[i := Some (turn_mark (isXNext a))]> (board a)) a)))
    as (-> & _).
  simpl. rewrite turn_mark_negb.
  destruct (checkWinner (<[i := Some (turn_mark (isXNext a))]> (board a)))
    as [r|] eqn:Hnew.
  - split; [done|]. intros [= Hr].
    apply (survives_over _ _ _ _ _ Hnew) in Hs'.
    rewrite opponent_opponent in Hs'. done.
  - split; [by exists k'|]. by rewrite Hw.
Qed.

Lemma placed_keeps m i a :
  mode (placed m i a) = mode a
  ∧ userSymbol (placed m i a) = userSymbol a
  ∧ showSymbolSelection (placed m i a) = showSymbolSelection a
  ∧ board (placed m i a) = <[i := Some (turn_mark (isXNext a))]> (board a)
  ∧ isXNext (placed m i a) = negb (isXNext a).
Proof.
  unfold placed.
  destruct (announce_keeps m
              (checkWinner (<[i := Some (turn_mark (isXNext a))]> (board a)))
              (setIsXNext (negb (isXNext a))
                 (setBoard (<[i := Some (turn_mark (isXNext a))]> (board a)) a)))
    as (-> & -> & -> & -> & -> & _).
  done.
Qed.

Lemma survives_new_game u : survives 10 (opponent u) empty_board X = true.
Proof.
  destruct u; [apply survives_moving_second | apply survives_moving_first].
Qed.

Lemma act_solo_ok a action :
  screen_ok a → solo_ok a → solo_ok (act a action).
Proof.
  intros Hok Hsolo. pose proof Hsolo as (Hmode & Hfresh & Hform & Hsafe & Hnever).
  unfold act. destruct (enabled a action) eqn:Hen; [|done].
  destruct action as [m|s|i| | |]; cbn [handler enabled] in *.
  - (* a mode button *)
    apply bool_decide_eq_true_1 in Hen.
    assert (userSymbol a = None) as Hu by (apply Hmode; congruence).
    destruct (Hfresh Hu) as [Hb Hx]; [congruence|].
    destruct m; repeat split; simpl; try done; intros; congruence.
  - (* a symbol button *)
    apply andb_prop in Hen as [Hm%bool_decide_eq_true_1 Hshow].
    pose proof (Hform Hshow) as Hu.
    destruct (Hfresh Hu) as [Hb Hx]; [congruence|].
    assert (winner a = None) as Hw.
    { destruct Hok as (_ & _ & -> & _). by rewrite Hb. }
    repeat split; simpl; try done.
    + intros u [= ->] _. exists 10. rewrite Hb, Hx. apply survives_new_game.
    + intros u _. by rewrite Hw.
  - (* a click *)
    apply andb_prop in Hen as [Hshow Hi%bool_decide_eq_true_1].
    destruct (handleSquareClick_cases i a)
      as [->|[(_ & sent & ->)|(Hm & Hc & Hw & Hturn & ->)]];
      [exact Hsolo..|].
    cbn [fst]. apply truthy_false in Hc; [|done].
    destruct (placed_keeps (mode a) i a) as (Hkm & Hku & Hks & Hkb & _).
    unfold solo_ok. rewrite Hkm, Hku, Hks.
    split; [done|]. split.
    { intros Hu Hoff. unfold shows_board in Hshow.
      destruct (mode a) as [[| |]|] eqn:Hmd; try done.
      specialize (Hturn eq_refl). congruence. }
    split; [done|].
    assert (∀ u, userSymbol a = Some u →
              (winner (placed (mode a) i a) = None →
               ∃ k, survives k (opponent u) (board (placed (mode a) i a))
                             (turn_mark (isXNext (placed (mode a) i a))) = true)
              ∧ winner (placed (mode a) i a) ≠ Some (Won u)) as Hboth.
    { intros u Hu. apply placed_solo; [done..|by apply Hsafe|done|].
      intros Hai. assert (mode a = Some single) as Hsingle.
      { destruct (decide (mode a = Some single)); [done|].
        rewrite Hmode in Hu; done. }
      specialize (Hturn Hsingle). rewrite Hu in Hturn. injection Hturn as ->.
      by destruct (turn_mark (isXNext a)). }
    split; intros u Hu; by apply Hboth.
  - (* the timer *)
    destruct (aiEffect_placed a Hok)
      as [->|(u & i & Hm & Hu & Hturn & Hw & Hc & Hai & ->)];
      [exact Hsolo|].
    destruct (placed_keeps (mode a) i a) as (Hkm & Hku & Hks & Hkb & _).
    unfold solo_ok. rewrite Hkm, Hku, Hks.
    split; [done|]. split; [intros Hnone; congruence|]. split; [done|].
    assert ((winner (placed (mode a) i a) = None →
             ∃ k, survives k (opponent u) (board (placed (mode a) i a))
                           (turn_mark (isXNext (placed (mode a) i a))) = true)
            ∧ winner (placed (mode a) i a) ≠ Some (Won u)) as Hboth.
    { apply placed_solo; [done..|by apply Hsafe|done|done]. }
    split; intros u' Hu'; assert (u' = u) as -> by congruence; apply Hboth.
  - (* the reset button *)
    unfold resetGame. case_bool_decide as Hmulti; [exact Hsolo|].
    repeat split; simpl; try done.
    intros u Hu _. exists 10. apply survives_new_game.
  - (* the quit button *)
    repeat split; simpl; done.
Qed.

Lemma session_solo actions : solo_ok (session actions).
Proof.
  induction actions as [|action actions IH] using rev_ind.
  - repeat split; simpl; done.
  - rewrite session_snoc. apply act_solo_ok; [apply session_screen | done].
Qed.

(** X11.  In a session on one device the banner never announces the user
    as the winner of a game against the computer, whatever the user
    clicks and whenever the timer of the computer's move runs. *)
Theorem user_never_wins actions u :
  userSymbol (session actions) = Some u →
  winner (session actions) ≠ Some (Won u).
Proof.
  intros Hu. destruct (session_solo actions) as (_ & _ & _ & _ & Hnever).
  by apply Hnever.
Qed.

Lemma user_never_wins_witness :
  userSymbol (session [SelectMode single; ChooseSymbol X; Click 4]) = Some X
  ∧ winner (session [SelectMode single; ChooseSymbol X; Click 4]) ≠ Some (Won X).
Proof.
  assert (userSymbol (session [SelectMode single; ChooseSymbol X; Click 4])
          = Some X) as Hu by reflexivity.
  split; [exact Hu|]. exact (user_never_wins _ X Hu).
Defined.

(** ** The scores *)


(** ** The computer's turn *)

Lemma aiEffect_on_turn a u :
  mode a = Some single →
  userSymbol a = Some u →
  turn_mark (isXNext a) = opponent u →
  winner a = None →
  aiEffect a
  = match aiTurn (board a) (opponent u) with
    | Some newBoard =>
        announce (mode a) (checkWinner newBoard)
          (setIsXNext (negb (isXNext a)) (setBoard newBoard a))
    | None => a
    end.
Proof.
  intros Hm Hu Hturn Hw. unfold aiEffect.
  rewrite (bool_decide_eq_true_2 (mode a = Some single)) by done.
  rewrite (bool_decide_eq_true_2 (userSymbol a ≠ None)) by by rewrite Hu.
  rewrite (bool_decide_eq_true_2 (Some (turn_mark (isXNext a)) ≠ userSymbol a))
    by (rewrite Hu, Hturn; by destruct u).
  rewrite (bool_decide_eq_true_2 (winner a = None)) by done.
  cbn [andb]. rewrite Hu.
  replace (if bool_decide (Some u = Some X) then O else X) with (opponent u)
    by by destruct u.
  replace (if bool_decide (opponent u = X) then false else true)
    with (negb (isXNext a)); [done|].
  destruct (isXNext a), u; simpl in *; congruence.
Qed.

(** X13.  On the computer's turn in a game against it, the timer's callback
    puts exactly one mark of the computer on an empty cell of the board on
    screen, announces the result and hands the turn over. *)
Theorem computer_moves_on_its_turn a u :
  screen_ok a →
  mode a = Some single →
  userSymbol a = Some u →
  turn_mark (isXNext a) = opponent u →
  winner a = None →
  ∃ i, board a !! i = Some None
       ∧ board (aiEffect a) = <[i := Some (opponent u)]> (board a)
       ∧ isXNext (aiEffect a) = negb (isXNext a)
       ∧ winner (aiEffect a)
         = Engine.winner <$> checkWinner (<[i := Some (opponent u)]> (board a)).
Proof.
  intros Hok Hm Hu Hturn Hw.
  destruct (screen_ok_open a Hok Hw) as [Hopen _].
  pose proof Hok as (Hlen & _).
  destruct (aiTurn_total (board a) (opponent u) Hlen Hopen)
    as (move & _ & Hc & Hai).
  exists (Z.to_nat move). split; [done|].
  assert (aiEffect a = placed (mode a) (Z.to_nat move) a) as ->.
  { rewrite (aiEffect_on_turn a u Hm Hu Hturn Hw), Hai.
    unfold placed. by rewrite Hturn. }
  destruct (placed_keeps (mode a) (Z.to_nat move) a) as (_ & _ & _ & -> & ->).
  rewrite Hturn. split; [done|]. split; [done|].
  unfold placed. rewrite Hturn.
  destruct (announce_winner (mode a)
              (checkWinner (<[Z.to_nat move := Some (opponent u)]> (board a)))
              (setIsXNext (negb (isXNext a))
                 (setBoard (<[Z.to_nat move := Some (opponent u)]> (board a)) a)))
    as (-> & _).
  cbn [winner setIsXNext setBoard]. rewrite Hw.
  by destruct (checkWinner (<[Z.to_nat move := Some (opponent u)]> (board a))).
Qed.

Lemma computer_moves_on_its_turn_witness :
  let a := session [SelectMode single; ChooseSymbol O] in
  ∃ i, board a !! i = Some None
       ∧ board (aiEffect a) = <[i := Some X]> (board a).
Proof.
  cbv zeta.
  destruct (computer_moves_on_its_turn
              (session [SelectMode single; ChooseSymbol O]) O)
    as (i & Hi & Hb & _).
  - apply session_screen.
  - reflexivity.
  - reflexivity.
  - reflexivity.
  - reflexivity.
  - exists i. split; [exact Hi | exact Hb].
Defined.

End ClientSpec.

(* ===================================================================== *)
(** * Properties of client and server together                            *)
(* ===================================================================== *)

Module OnlineSpec.
Import Engine EngineSpec Client ClientSpec Online.

(** ** What a click sends *)

Lemma online_click_sent i a sent :
  mode a = Some multi →
  sent ∈ (handleSquareClick i a).2 →
  sent = sent_make_move (roomCode a) i (mySymbol a) ∧ may_send i a.
Proof.
  intros Hm. unfold handleSquareClick, may_send.
  destruct (truthy (board a !! i)) eqn:Hc; [by intros ?%elem_of_nil|].
  destruct (decide (winner a = None)) as [Hw|Hw];
    [|rewrite (bool_decide_eq_true_2 (winner a ≠ None)) by done;
      by intros ?%elem_of_nil].
  rewrite (bool_decide_eq_false_2 (winner a ≠ None)) by by intros [].
  rewrite (bool_decide_eq_false_2 (mode a = Some single)) by congruence.
  rewrite (bool_decide_eq_true_2 (mode a = Some multi)) by done.
  cbn [orb andb].
  destruct (isMultiReady a) eqn:Hready; [|by intros ?%elem_of_nil].
  cbn [negb orb].
  destruct (isXNext a) eqn:Hx; cbn [negb andb orb].
  - destruct (decide (mySymbol a = Some X)) as [Hs|Hs];
      [|rewrite (bool_decide_eq_true_2 (mySymbol a ≠ Some X)) by done;
        by intros ?%elem_of_nil].
    rewrite (bool_decide_eq_false_2 (mySymbol a ≠ Some X)) by by intros [].
    destruct (socket a); [|by intros ?%elem_of_nil].
    intros ->%list_elem_of_singleton. done.
  - destruct (decide (mySymbol a = Some O)) as [Hs|Hs];
      [|rewrite (bool_decide_eq_true_2 (mySymbol a ≠ Some O)) by done;
        by intros ?%elem_of_nil].
    rewrite (bool_decide_eq_false_2 (mySymbol a ≠ Some O)) by by intros [].
    destruct (socket a); [|by intros ?%elem_of_nil].
    intros ->%list_elem_of_singleton. done.
Qed.

Lemma online_click_sends i a :
  mode a = Some multi →
  may_send i a →
  handleSquareClick i a = (a, [sent_make_move (roomCode a) i (mySymbol a)]).
Proof.
  intros Hm (Hsock & Hready & Hc & Hw & Hs). unfold handleSquareClick.
  rewrite Hc, Hw, Hready, Hsock, Hs.
  rewrite (bool_decide_eq_false_2 (None ≠ None)) by by intros [].
  rewrite (bool_decide_eq_false_2 (mode a = Some single)) by congruence.
  rewrite (bool_decide_eq_true_2 (mode a = Some multi)) by done.
  by destruct (isXNext a).
Qed.

Lemma online_click_state i a :
  mode a = Some multi → (handleSquareClick i a).1 = a.
Proof.
  intros Hm.
  destruct (handleSquareClick_cases i a)
    as [->|[(_ & sent & ->)|(Hnm & _)]]; done.
Qed.

(** X14.  Online, a click never touches the local state: the board on
    screen changes only when the server says so.  The click sends one
    [make_move], with the room code, the cell and the client's own symbol,
    exactly when a socket is held, the game is ready, the cell is empty, no
    winner is shown and the symbol is the side to move; otherwise it sends
    nothing. *)
Theorem online_click i a :
  mode a = Some multi →
  (handleSquareClick i a).1 = a
  ∧ (may_send i a →
     (handleSquareClick i a).2 = [sent_make_move (roomCode a) i (mySymbol a)])
  ∧ (¬ may_send i a → (handleSquareClick i a).2 = []).
Proof.
  intros Hm. split; [by apply online_click_state|]. split.
  - intros Hmay. by rewrite (online_click_sends i a Hm Hmay).
  - intros Hno. destruct (handleSquareClick i a).2 as [|sent rest] eqn:Hsent;
      [done|].
    destruct (online_click_sent i a sent Hm) as [_ Hmay]; [|done].
    rewrite Hsent. by left.
Qed.

Lemma online_click_witness :
  let a := on_game_ready empty_board "X"
             (on_player_assignment (Some X)
                (setSocket true (selectMode multi start))) in
  (handleSquareClick 4 a).1 = a
  ∧ (handleSquareClick 4 a).2 = [sent_make_move "" 4 (Some X)].
Proof.
  cbv zeta.
  destruct (online_click 4
              (on_game_ready empty_board "X"
                 (on_player_assignment (Some X)
                    (setSocket true (selectMode multi start)))) eq_refl)
    as (Hstate & Hsend & _).
  split; [exact Hstate|]. apply Hsend. by repeat split.
Defined.

(** ** The wire *)

Lemma read_cell_wire c p : read_cell c = Some p → wire_cell p = c.
Proof.
  destruct c as [s|]; simpl; [|by intros [= <-]].
  unfold read_mark. repeat case_bool_decide; subst; simpl; by intros [= <-].
Qed.

Lemma read_board_wire b cb : read_board b = Some cb → wire_board cb = b.
Proof.
  unfold read_board, wire_board. intros Hall%mapM_Some.
  induction Hall as [|c p b cb Hc _ IH]; [done|].
  rewrite fmap_cons, IH. f_equal. by apply read_cell_wire.
Qed.

Lemma read_board_total (b : list (option string)) :
  Forall ServerShape.cell_ok b → is_Some (read_board b).
Proof.
  intros Hok. unfold read_board. apply mapM_is_Some.
  eapply Forall_impl; [exact Hok|].
  intros c [-> | [-> | ->]]; by eexists.
Qed.

(** X15.  A client that shows the room's board and turn sends only moves
    the server accepts: when its click goes out, the message passes the
    server's guard and is broadcast, whichever socket carries it. *)
Theorem synced_click_is_accepted a st room i sent :
  mode a = Some multi →
  i < length (board a) →
  Server.rooms st !! roomCode a = Some room →
  Server.room_ok room →
  synced a room →
  sent ∈ (handleSquareClick i a).2 →
  ∃ msg, wire sent = Some msg
         ∧ Server.move_allowed st (roomCode a) (Z.of_nat i)
             (wire_mark (turn_mark (isXNext a)))
         ∧ ∀ sock, Server.emits_move_made (Server.handle sock msg st).2.
Proof.
  intros Hm Hi Hroom [_ Hxo] [Hboard Hturn] Hsent.
  destruct (online_click_sent i a sent Hm Hsent)
    as (-> & _ & _ & Hc & _ & Hs).
  rewrite Hs. cbn [wire]. eexists. split; [done|].
  apply truthy_false in Hc; [|done].
  assert (Server.move_allowed st (roomCode a) (Z.of_nat i)
            (wire_mark (turn_mark (isXNext a)))) as Hallowed.
  { exists room. split; [done|]. split.
    - unfold Server.array_get. rewrite bool_decide_eq_true_2 by lia.
      rewrite Nat2Z.id, <- Hboard. unfold wire_board.
      by rewrite list_lookup_fmap, Hc.
    - rewrite Hturn. case_bool_decide as Hx; [done|].
      by destruct Hxo. }
  split; [done|]. intros sock.
  destruct Hallowed as (room0 & Hroom0 & Hcell & Ht).
  cbn [Server.handle].
  rewrite (ServerSpec.on_make_move_allowed _ _ _ _ _ Hroom0 Hcell Ht).
  do 4 eexists. apply list_elem_of_singleton. reflexivity.
Qed.

Lemma synced_click_is_accepted_witness :
  let st := (Server.run Server.init
               [("s1", Server.join_room "A"); ("s2", Server.join_room "A")]).1 in
  let a := on_game_ready empty_board "X"
             (on_player_assignment (Some X)
                (setSocket true
                   (mkApp (Some multi) empty_board true None None
                      (mkScores no_score no_score no_score)
                      None false false "A" None false None))) in
  ∃ msg, wire (sent_make_move "A" 4 (Some X)) = Some msg
         ∧ Server.move_allowed st "A" 4 "X"
         ∧ ∀ sock, Server.emits_move_made (Server.handle sock msg st).2.
Proof.
  cbv zeta.
  eapply (synced_click_is_accepted
            (on_game_ready empty_board "X"
               (on_player_assignment (Some X)
                  (setSocket true
                     (mkApp (Some multi) empty_board true None None
                        (mkScores no_score no_score no_score)
                        None false false "A" None false None))))
            _ (Server.mkRoom ["s1"; "s2"] Server.empty_board "X") 4).
  - reflexivity.
  - simpl. lia.
  - vm_compute. reflexivity.
  - split; [reflexivity | by left].
  - split; reflexivity.
  - vm_compute. left.
Defined.

(** X16.  Every broadcast of the server brings a client that handles it in
    step with the room: whatever the client showed before, afterwards it
    shows the board and the turn the room has once the message that caused
    the broadcast is handled. *)
Theorem broadcast_brings_client_in_step sock m st code recipients sm a :
  Server.reachable st →
  Server.Broadcast code recipients sm ∈ (Server.handle sock m st).2 →
  ∃ a' room',
    receive sm a = Some a'
    ∧ Server.rooms (Server.handle sock m st).1 !! code = Some room'
    ∧ synced a' room'.
Proof.
  intros Hreach Hin.
  destruct (ServerMore.handle_broadcast _ _ _ _ _ _ Hin)
    as (_ & _ & room' & Hroom' & Hpay).
  assert (ServerShape.board_ok room') as (_ & Hcells & _).
  { eapply ServerMore.reachable_board_ok; [|exact Hroom'].
    by apply ServerSpec.reachable_handle. }
  destruct (read_board_total _ Hcells) as [cb Hcb].
  pose proof (read_board_wire _ _ Hcb) as Hwire.
  destruct sm as [s|b t|b t|b t|msg]; simpl in Hpay; try done;
    injection Hpay as -> ->; cbn [receive]; rewrite Hcb; cbn [mbind option_bind].
  - eexists _, room'. split; [done|]. split; [done|]. by split.
  - eexists _, room'. split; [done|]. split; [done|].
    unfold on_move_made, synced.
    destruct (announce_keeps (Some multi) (checkWinner cb)
                (setIsXNext (bool_decide (Server.turn room' = "X"))
                   (setBoard cb a))) as (_ & -> & -> & _).
    by split.
  - eexists _, room'. split; [done|]. split; [done|]. by split.
Qed.

Lemma broadcast_brings_client_in_step_witness :
  let st := (Server.run Server.init
               [("s1", Server.join_room "A"); ("s2", Server.join_room "A")]).1 in
  ∃ a' room',
    receive (Server.move_made (Some "X" :: replicate 8 None) "O") start = Some a'
    ∧ Server.rooms (Server.handle "s1" (Server.make_move "A" 0 "X") st).1 !! "A"
      = Some room'
    ∧ synced a' room'.
Proof.
  cbv zeta.
  eapply (broadcast_brings_client_in_step "s1" (Server.make_move "A" 0 "X")).
  - apply (ServerSpec.reachable_run
             [("s1", Server.join_room "A"); ("s2", Server.join_room "A")]).
  - vm_compute. left.
Defined.

End OnlineSpec.
